(** * Pattern parsing and signature building (lib/Parse/ParsePattern.cpp)

    A shallow embedding of the pattern parser of the Swift front end:
    [checkFullyTyped], [parseFunctionSignature], [parsePattern],
    [parsePatternAtom] and [parsePatternTuple].

    The parser is a C++ object whose methods read and advance a current
    token and append diagnostics.  Here the parser object is an explicit
    [ParserState] threaded through a small monad; an [assert] that fires and
    running out of recursion fuel are outcomes of their own.  Pattern nodes
    are mutated in place by the checker ([setType]); the embedding returns
    the updated node next to the boolean the C++ function returns. *)

From Stdlib Require Import List String Bool Arith Lia.
Import ListNotations.
Local Open Scope string_scope.
Local Open Scope list_scope.

Set Implicit Arguments.

(** ** Tokens *)

Module tok.

(** The token kinds the pattern parser looks at, and a few it merely
    skips over. *)
Inductive kind : Set :=
  | unknown
  | eof
  | identifier
  | oper
  | numeric_constant
  | comma
  | colon
  | equal
  | arrow
  | l_paren
  | l_paren_space
  | r_paren.

Definition eq_dec (a b : kind) : {a = b} + {a <> b}.
Proof. decide equality. Defined.

Definition eqb (a b : kind) : bool := if eq_dec a b then true else false.

End tok.

Module diag.

(** The diagnostics this file emits or hands to the expression parser. *)
Inductive ID : Set :=
  | untyped_pattern_in_function_signature
  | expected_pattern
  | expected_initializer_expr
  | expected_rparen_tuple_pattern_list.

(** Modelled from the spec: the message table (Diagnostics.def) is not part
    of the sources at hand; the texts are the ones the specification
    quotes. *)
Definition text (d : ID) : string :=
    match d with
    | untyped_pattern_in_function_signature =>
        "pattern requires an explicit type in this context"
    | expected_pattern => "expected a pattern"
    | expected_initializer_expr => "expected an initializer expression"
    | expected_rparen_tuple_pattern_list => "expected ')'"
    end.

End diag.

Definition SourceLoc := nat.
Definition SourceRange := (SourceLoc * SourceLoc)%type.
Definition Identifier := string.
Definition DeclContext := nat.

Record Token : Set := mkToken {
  Kind : tok.kind;
  Text : string;
  Loc : SourceLoc
}.

(** ** AST: expressions, types, patterns *)

(** Expressions are built by the expression parser, an external
    collaborator; the pattern parser only stores the node it is handed. *)
Inductive Expr : Set :=
| ExprNode (id : nat).

(** [Type] in the source is a nullable handle to a uniqued type node;
    [NullType] is the default-constructed [Type()].  Uniquing makes pointer
    equality structural equality. *)
Inductive Type_ : Set :=
| NullType
| NominalType (name : Identifier)
| TupleType (Fields : list TupleTypeElt)
| FunctionType (Input Result : Type_)
with TupleTypeElt : Set :=
| mkTupleTypeElt (Ty : Type_) (Name : Identifier) (Init : option Expr).

(** [TupleType::getEmpty(Context)]. *)
Definition TupleType_getEmpty : Type_ := TupleType [].

Record VarDecl : Set := mkVarDecl {
  VarLoc : SourceLoc;
  VarName : Identifier;
  VarTy : Type_;
  VarInit : option Expr;
  VarContext : DeclContext
}.

(** The five pattern kinds.  Every node carries the type slot of the
    [Pattern] base class (last field); for a [TypedPattern] the slot is
    filled with the annotation when the node is built. *)
Inductive Pattern : Set :=
| ParenPattern (LPLoc : SourceLoc) (SubPattern : Pattern) (RPLoc : SourceLoc)
               (Ty : Type_)
| TuplePattern (LPLoc : SourceLoc) (Fields : list TuplePatternElt)
               (RPLoc : SourceLoc) (Ty : Type_)
| NamedPattern (Var : VarDecl) (Ty : Type_)
| AnyPattern (L : SourceLoc) (Ty : Type_)
| TypedPattern (SubPattern : Pattern) (Ty : Type_)
with TuplePatternElt : Set :=
| mkTuplePatternElt (ThePattern : Pattern) (Init : option Expr).

Definition getPattern (elt : TuplePatternElt) : Pattern :=
  match elt with mkTuplePatternElt p _ => p end.

Definition getInit (elt : TuplePatternElt) : option Expr :=
  match elt with mkTuplePatternElt _ i => i end.

Definition getType (pattern : Pattern) : Type_ :=
  match pattern with
  | ParenPattern _ _ _ ty => ty
  | TuplePattern _ _ _ ty => ty
  | NamedPattern _ ty => ty
  | AnyPattern _ ty => ty
  | TypedPattern _ ty => ty
  end.

Definition setType (pattern : Pattern) (ty : Type_) : Pattern :=
  match pattern with
  | ParenPattern lp sub rp _ => ParenPattern lp sub rp ty
  | TuplePattern lp elts rp _ => TuplePattern lp elts rp ty
  | NamedPattern var _ => NamedPattern var ty
  | AnyPattern loc _ => AnyPattern loc ty
  | TypedPattern sub _ => TypedPattern sub ty
  end.

Inductive PatternKind : Set :=
| Paren | Tuple | Named | Any | Typed.

Definition getKind (pattern : Pattern) : PatternKind :=
  match pattern with
  | ParenPattern _ _ _ _ => Paren
  | TuplePattern _ _ _ _ => Tuple
  | NamedPattern _ _ => Named
  | AnyPattern _ _ => Any
  | TypedPattern _ _ => Typed
  end.

(** Structural induction that reaches the patterns inside tuple fields. *)
Section PatternInduction.
Variable Q : Pattern -> Prop.
Hypothesis HParen : forall lp sub rp ty, Q sub -> Q (ParenPattern lp sub rp ty).
Hypothesis HTuple : forall lp elts rp ty,
      Forall (fun elt => Q (getPattern elt)) elts -> Q (TuplePattern lp elts rp ty).
Hypothesis HNamed : forall var ty, Q (NamedPattern var ty).
Hypothesis HAny : forall loc ty, Q (AnyPattern loc ty).
Hypothesis HTyped : forall sub ty, Q sub -> Q (TypedPattern sub ty).

Fixpoint Pattern_nested_ind (p : Pattern) : Q p :=
    match p with
    | ParenPattern lp sub rp ty => HParen lp rp ty (Pattern_nested_ind sub)
    | TuplePattern lp elts rp ty =>
        HTuple lp rp ty
          ((fix fields (l : list TuplePatternElt)
              : Forall (fun elt => Q (getPattern elt)) l :=
              match l with
              | [] => Forall_nil _
              | elt :: rest =>
                  Forall_cons elt
                    (match elt return Q (getPattern elt) with
                     | mkTuplePatternElt sub _ => Pattern_nested_ind sub
                     end)
                    (fields rest)
              end) elts)
    | NamedPattern var ty => HNamed var ty
    | AnyPattern loc ty => HAny loc ty
    | TypedPattern sub ty => HTyped ty (Pattern_nested_ind sub)
    end.
End PatternInduction.

(** ** Parser state and the parser monad *)

Record Diagnostic : Set := mkDiagnostic {
  DiagLoc : SourceLoc;
  DiagID : diag.ID;
  DiagRanges : list SourceRange
}.

(** The part of the [Parser] object this file touches: the token stream
    (current token first; past its end the lexer keeps answering
    [tok::eof]), the diagnostics emitted so far in order of emission, and the
    current declaration context. *)
Record ParserState : Set := mkParserState {
  Tokens : list Token;
  EofLoc : SourceLoc;
  Diags : list Diagnostic;
  CurDeclContext : DeclContext
}.

Definition Tok (s : ParserState) : Token :=
  match Tokens s with
  | t :: _ => t
  | [] => mkToken tok.eof EmptyString (EofLoc s)
  end.

Definition Tok_is (s : ParserState) (K : tok.kind) : bool :=
  tok.eqb (Kind (Tok s)) K.

Definition Tok_isNot (s : ParserState) (K : tok.kind) : bool :=
  negb (Tok_is s K).

(** What a call leaves behind: a value and the next parser state, a failed
    [assert], or exhausted fuel. *)
Inductive Res (A : Type) : Type :=
| Ret (a : A) (s : ParserState)
| AssertFail
| OutOfFuel.

Arguments AssertFail {A}.
Arguments OutOfFuel {A}.

Definition M (A : Type) : Type := ParserState -> Res A.

Definition ret {A} (a : A) : M A := fun s => Ret a s.

Definition bind {A B} (m : M A) (k : A -> M B) : M B :=
  fun s => match m s with
           | Ret a s' => k a s'
           | AssertFail => AssertFail
           | OutOfFuel => OutOfFuel
           end.

Notation "x <- m ;; k" := (bind m (fun x => k))
  (at level 61, m at next level, right associativity).
Notation "m ;;; k" := (bind m (fun _ => k))
  (at level 61, right associativity).

Definition get : M ParserState := fun s => Ret s s.

Definition assert (b : bool) : M unit :=
  fun s => if b then Ret tt s else AssertFail.

Definition outOfFuel {A} : M A := fun _ => OutOfFuel.

(** Lifting an external collaborator, which always returns. *)
Definition call {A} (f : ParserState -> A * ParserState) : M A :=
  fun s => let (a, s') := f s in Ret a s'.

(** ** Parser primitives (Parser.h / Parser.cpp) *)

(** Modelled from the spec: [Parser::consumeToken] is declared in Parser.h,
    which is not part of the sources at hand.  Token stream contract:
    consume the current token and answer its location. *)
Definition advance (s : ParserState) : ParserState :=
  mkParserState (tl (Tokens s)) (EofLoc s) (Diags s) (CurDeclContext s).

Definition consumeToken : M SourceLoc :=
  fun s => Ret (Loc (Tok s)) (advance s).

(** Modelled from the spec: consume the current token, asserting an
    expected kind. *)
Definition consumeTokenK (K : tok.kind) : M SourceLoc :=
  s <- get ;;
  assert (Tok_is s K) ;;;
  consumeToken.

(** Modelled from the spec: [Parser::consumeIf], consume the current token
    when it has the given kind and say whether it had. *)
Definition consumeIf (K : tok.kind) : M bool :=
  s <- get ;;
  if Tok_isNot s K then ret false
  else consumeTokenK K ;;; ret true.

(** Modelled from the spec: [Parser::skipUntil] is defined in Parser.cpp,
    which is not part of the sources at hand.  The specification has it skip
    tokens up to and including the next token of the target kind; at the end
    of the input there is nothing left to skip. *)
Fixpoint skipTokens (T : tok.kind) (toks : list Token) : list Token :=
  match toks with
  | [] => []
  | t :: rest => if tok.eqb (Kind t) T then rest else skipTokens T rest
  end.

Definition skipped (T : tok.kind) (s : ParserState) : ParserState :=
  mkParserState (skipTokens T (Tokens s)) (EofLoc s) (Diags s)
                (CurDeclContext s).

Definition skipUntil (T : tok.kind) : M unit :=
  fun s => Ret tt (skipped T s).

(** Modelled from the spec: the diagnostic sink is append-only and
    fire-and-forget. *)
Definition diagnosed (loc : SourceLoc) (id : diag.ID)
           (ranges : list SourceRange) (s : ParserState) : ParserState :=
  mkParserState (Tokens s) (EofLoc s)
                (Diags s ++ [mkDiagnostic loc id ranges]) (CurDeclContext s).

Definition diagnose (loc : SourceLoc) (id : diag.ID)
           (ranges : list SourceRange) : M unit :=
  fun s => Ret tt (diagnosed loc id ranges s).

(** Modelled from the spec: [ParseResult<T>] is declared in Parser.h, which
    is not part of the sources at hand.  It is the tri-state outcome: a
    value, a hard syntax failure (what [return true] converts to), or a soft
    semantic failure ([getSemaError()], which takes no value). *)
Inductive ParseResult (T : Type) : Type :=
| Success (v : T)
| ParseError
| SemaError.

Arguments ParseError {T}.
Arguments SemaError {T}.

Definition isParseError {T} (r : ParseResult T) : bool :=
  match r with ParseError => true | _ => false end.

Definition isSemaError {T} (r : ParseResult T) : bool :=
  match r with SemaError => true | _ => false end.

Definition isSuccess {T} (r : ParseResult T) : bool :=
  match r with Success _ => true | _ => false end.

(** How a loop body leaves: by a [return] of the enclosing function, or by
    falling through to the loop condition with the updated locals. *)
Inductive Flow (R A : Type) : Type :=
| Returned (r : R)
| Fallthrough (a : A).

Arguments Returned {R A}.
Arguments Fallthrough {R A}.

(** ** The parser *)

Section Parser.

(** [bool Parser::parseType(Type &Result)], the external type parser: it is
    handed the current contents of the out-parameter and answers the error
    flag and the new contents. *)
Variable parseType : Type_ -> ParserState -> (bool * Type_) * ParserState.

(** [ParseResult<Expr> Parser::parseExpr(Diag<> ID)], the external
    expression parser. *)
Variable parseExpr : diag.ID -> ParserState -> ParseResult Expr * ParserState.

(** [Identifier Pattern::getBoundName() const], declared in the AST
    headers. *)
Variable getBoundName : Pattern -> Identifier.

(** *** checkFullyTyped *)

(** The [for] loop over [tuple->getFields()] (lines 40-47).  [check] is the
    recursive call; the answer is the early-return flag, the fields as the
    calls left them, the [typeElts] vector and the parser. *)
Fixpoint checkFields
         (check : ParserState -> Pattern -> bool * Pattern * ParserState)
         (P : ParserState) (fields : list TuplePatternElt)
         (typeElts : list TupleTypeElt)
  : bool * list TuplePatternElt * list TupleTypeElt * ParserState :=
  match fields with
  | [] => (false, [], typeElts, P)
  | elt :: rest =>
      match elt with
      | mkTuplePatternElt subpattern init =>
          let '(err, subpattern', P1) := check P subpattern in
          if err then
            (true, mkTuplePatternElt subpattern' init :: rest, typeElts, P1)
          else
            let '(err', rest', typeElts', P2) :=
              checkFields check P1 rest
                (typeElts ++ [mkTupleTypeElt (getType subpattern')
                                             (getBoundName subpattern')
                                             init]) in
            (err', mkTuplePatternElt subpattern' init :: rest', typeElts', P2)
      end
  end.

(** [static bool checkFullyTyped(Parser &P, Pattern *pattern)]: [true] is
    failure.  The second component is the node after the call. *)
Fixpoint checkFullyTyped (P : ParserState) (pattern : Pattern)
  : bool * Pattern * ParserState :=
  match pattern with
  | TypedPattern _ _ => (false, pattern, P)
  | ParenPattern lp sub rp ty =>
      let '(err, sub', P') := checkFullyTyped P sub in
      if err then (true, ParenPattern lp sub' rp ty, P')
      else (false, setType (ParenPattern lp sub' rp ty) (getType sub'), P')
  | TuplePattern lp fields rp ty =>
      let '(err, fields', typeElts, P') :=
        checkFields checkFullyTyped P fields [] in
      if err then (true, TuplePattern lp fields' rp ty, P')
      else (false, setType (TuplePattern lp fields' rp ty) (TupleType typeElts),
            P')
  | NamedPattern var _ =>
      (true, pattern,
       diagnosed (VarLoc var) diag.untyped_pattern_in_function_signature
                 [(VarLoc var, VarLoc var)] P)
  | AnyPattern loc _ =>
      (true, pattern,
       diagnosed loc diag.untyped_pattern_in_function_signature
                 [(loc, loc)] P)
  end.

(** The component of a tuple type a checked field contributes. *)
Definition fieldTypeElt (elt : TuplePatternElt) : TupleTypeElt :=
  mkTupleTypeElt (getType (getPattern elt)) (getBoundName (getPattern elt))
                 (getInit elt).

(** [elt'] is what a successful check leaves of [elt]. *)
Definition checkedField (P : ParserState) (elt elt' : TuplePatternElt) : Prop :=
  getInit elt' = getInit elt /\
  checkFullyTyped P (getPattern elt) = (false, getPattern elt', P).

(** *** parsePattern, parsePatternAtom, parsePatternTuple *)

(** One turn of the element loop of [parsePatternTuple] (lines 180-202). *)
Definition parsePatternTupleElt (parsePattern : M (ParseResult Pattern))
           (elts : list TuplePatternElt) (hasSemaError : bool)
  : M (Flow (ParseResult Pattern) (list TuplePatternElt * bool)) :=
  pattern <- parsePattern ;;
  match pattern with
  | ParseError =>
      skipUntil tok.r_paren ;;;
      ret (Returned ParseError)
  | _ =>
      hasEqual <- consumeIf tok.equal ;;
      r <- (if hasEqual then
              initR <- call (parseExpr diag.expected_initializer_expr) ;;
              match initR with
              | ParseError =>
                  skipUntil tok.r_paren ;;;
                  ret (Returned ParseError)
              | SemaError => ret (Fallthrough (None, true))
              | Success e => ret (Fallthrough (Some e, hasSemaError))
              end
            else ret (Fallthrough (None, hasSemaError))) ;;
      match r with
      | Returned res => ret (Returned res)
      | Fallthrough (init, hasSemaError) =>
          match pattern with
          | Success p =>
              ret (Fallthrough (elts ++ [mkTuplePatternElt p init],
                                hasSemaError))
          | _ => ret (Fallthrough (elts, true))
          end
      end
  end.

(** Lines 218-224: a pattern which wraps a single anonymous pattern is not a
    tuple. *)
Definition wrapsSingleAnonymous (elts : list TuplePatternElt) : bool :=
  match elts with
  | [elt] =>
      match getInit elt with
      | None => String.eqb (getBoundName (getPattern elt)) EmptyString
      | Some _ => false
      end
  | _ => false
  end.

Definition makeTupleOrParen (lp : SourceLoc) (elts : list TuplePatternElt)
           (rp : SourceLoc) : Pattern :=
  if wrapsSingleAnonymous elts then
    match elts with
    | elt :: _ => ParenPattern lp (getPattern elt) rp NullType
    | [] => TuplePattern lp elts rp NullType
    end
  else TuplePattern lp elts rp NullType.

Fixpoint parsePattern (fuel : nat) : M (ParseResult Pattern) :=
  match fuel with
  | 0 => outOfFuel
  | S fuel =>
      pattern <- parsePatternAtom fuel ;;
      if isParseError pattern then ret ParseError
      else
        hasColon <- consumeIf tok.colon ;;
        if hasColon then
          r <- call (parseType NullType) ;;
          let '(err, type) := r in
          if err then ret ParseError
          else
            match pattern with
            | Success p => ret (Success (TypedPattern p type))
            | _ => ret pattern
            end
        else ret pattern
  end

with parsePatternAtom (fuel : nat) : M (ParseResult Pattern) :=
  match fuel with
  | 0 => outOfFuel
  | S fuel =>
      s <- get ;;
      match Kind (Tok s) with
      | tok.l_paren | tok.l_paren_space => parsePatternTuple fuel
      | tok.identifier =>
          let loc := Loc (Tok s) in
          let text := Text (Tok s) in
          consumeTokenK tok.identifier ;;;
          if String.eqb text "_" then ret (Success (AnyPattern loc NullType))
          else
            let ident : Identifier := text in
            let var := mkVarDecl loc ident NullType None (CurDeclContext s) in
            ret (Success (NamedPattern var NullType))
      | _ =>
          diagnose (Loc (Tok s)) diag.expected_pattern [] ;;;
          ret ParseError
      end
  end

with parsePatternTuple (fuel : nat) : M (ParseResult Pattern) :=
  match fuel with
  | 0 => outOfFuel
  | S fuel =>
      s <- get ;;
      assert (Tok_is s tok.l_paren || Tok_is s tok.l_paren_space) ;;;
      lp <- consumeToken ;;
      s <- get ;;
      r <- (if Tok_isNot s tok.r_paren
            then parsePatternTupleElts fuel [] false
            else ret (Fallthrough ([], false))) ;;
      match r with
      | Returned res => ret res
      | Fallthrough (elts, hasSemaError) =>
          rp <- consumeTokenK tok.r_paren ;;
          if hasSemaError then ret SemaError
          else ret (Success (makeTupleOrParen lp elts rp))
      end
  end

(** The [do ... while (consumeIf(tok::comma))] loop and the check for the
    closing parenthesis that follows it (lines 179-209). *)
with parsePatternTupleElts (fuel : nat) (elts : list TuplePatternElt)
                           (hasSemaError : bool)
  : M (Flow (ParseResult Pattern) (list TuplePatternElt * bool)) :=
  match fuel with
  | 0 => outOfFuel
  | S fuel =>
      r <- parsePatternTupleElt (parsePattern fuel) elts hasSemaError ;;
      match r with
      | Returned res => ret (Returned res)
      | Fallthrough (elts, hasSemaError) =>
          hasComma <- consumeIf tok.comma ;;
          if hasComma then parsePatternTupleElts fuel elts hasSemaError
          else
            s <- get ;;
            if Tok_isNot s tok.r_paren then
              diagnose (Loc (Tok s)) diag.expected_rparen_tuple_pattern_list
                       [] ;;;
              skipUntil tok.r_paren ;;;
              ret (Returned ParseError)
            else ret (Fallthrough (elts, hasSemaError))
      end
  end.

(** *** parseFunctionSignature *)

(** One turn of the clause loop (lines 68-75).  A [return] carries the
    contents of [params] at that point next to the flag. *)
Definition parseSignatureClause (parsePatternTuple : M (ParseResult Pattern))
           (params : list Pattern) (hasSemaError : bool)
  : M (Flow (bool * list Pattern) (list Pattern * bool)) :=
  pattern <- parsePatternTuple ;;
  match pattern with
  | ParseError => ret (Returned (true, params))
  | SemaError => ret (Fallthrough (params, true))
  | Success p => ret (Fallthrough (params ++ [p], hasSemaError))
  end.

(** The [do ... while (Tok.is(tok::l_paren) || Tok.is(tok::l_paren_space))]
    loop (lines 67-76). *)
Fixpoint parseSignatureClauses (fuel : nat) (params : list Pattern)
         (hasSemaError : bool)
  : M (Flow (bool * list Pattern) (list Pattern * bool)) :=
  match fuel with
  | 0 => outOfFuel
  | S fuel =>
      r <- parseSignatureClause (parsePatternTuple fuel) params hasSemaError ;;
      match r with
      | Returned res => ret (Returned res)
      | Fallthrough (params, hasSemaError) =>
          s <- get ;;
          if Tok_is s tok.l_paren || Tok_is s tok.l_paren_space
          then parseSignatureClauses fuel params hasSemaError
          else ret (Fallthrough (params, hasSemaError))
      end
  end.

(** The loop [for (unsigned i = params.size(); i != 0; --i)] (lines 91-102):
    the last clause is checked and folded first, so the tail of the list is
    dealt with before its head. *)
Fixpoint buildFunctionType (P : ParserState) (params : list Pattern)
         (type : Type_) : list Pattern * Type_ * ParserState :=
  match params with
  | [] => ([], type, P)
  | param :: later =>
      let '(later', type, P) := buildFunctionType P later type in
      let '(err, param', P) := checkFullyTyped P param in
      let paramType := if err then TupleType_getEmpty else getType param' in
      (param' :: later', FunctionType paramType type, P)
  end.

(** [bool Parser::parseFunctionSignature(SmallVectorImpl<Pattern*> &params,
    Type &type)]: the answer is the returned flag ([true] is failure) with
    the contents of the two reference parameters at the return. *)
Definition parseFunctionSignature (fuel : nat) (params : list Pattern)
           (type : Type_) : M (bool * list Pattern * Type_) :=
  r <- parseSignatureClauses fuel params false ;;
  match r with
  | Returned (b, params) => ret (b, params, type)
  | Fallthrough (params, hasSemaError) =>
      hasArrow <- consumeIf tok.arrow ;;
      r <- (if hasArrow then
              r <- call (parseType type) ;;
              let '(err, type) := r in
              if err then ret (Returned (true, params, type))
              else ret (Fallthrough type)
            else ret (Fallthrough TupleType_getEmpty)) ;;
      match r with
      | Returned res => ret res
      | Fallthrough type =>
          fun s =>
            let '(params, type, s) := buildFunctionType s params type in
            Ret (false, params, type) s
      end
  end.

(** *** Vocabulary for the statements *)

(** The turns of the element loop of one tuple parse: the loop entered with
    [fuel0] in state [s0] begins a turn with the given fuel, element list,
    flag and state.  A further turn follows a turn that fell through in
    front of a comma. *)
Inductive LoopTurn (fuel0 : nat) (s0 : ParserState)
  : nat -> list TuplePatternElt -> bool -> ParserState -> Prop :=
| FirstTurn : LoopTurn fuel0 s0 fuel0 [] false s0
| NextTurn fuel elts hasSemaError s elts' hasSemaError' s' :
    LoopTurn fuel0 s0 (S fuel) elts hasSemaError s ->
    parsePatternTupleElt (parsePattern fuel) elts hasSemaError s
    = Ret (Fallthrough (elts', hasSemaError')) s' ->
    Tok_is s' tok.comma = true ->
    LoopTurn fuel0 s0 fuel elts' hasSemaError' (advance s').

(** The outcomes of the calls of [parsePatternTuple] that the clause loop of
    [parseFunctionSignature] makes from state [s], in order: one for each
    curried clause. *)
Fixpoint clauseResults (fuel : nat) (s : ParserState)
  : list (ParseResult Pattern) :=
  match fuel with
  | 0 => []
  | S fuel =>
      match parsePatternTuple fuel s with
      | Ret r s' =>
          r :: match r with
               | ParseError => []
               | _ => if Tok_is s' tok.l_paren || Tok_is s' tok.l_paren_space
                      then clauseResults fuel s'
                      else []
               end
      | _ => []
      end
  end.

(** The parameter type a clause contributes to the function type: its
    synthesized type when the check succeeds, the empty tuple type when it
    fails. *)
Definition clauseType (P : ParserState) (param : Pattern) : Type_ :=
  let '(err, param', _) := checkFullyTyped P param in
  if err then TupleType_getEmpty else getType param'.

(** The return type of a signature whose clauses end in state [s]: the type
    parsed after an arrow, else the empty tuple type. *)
Definition resultType (type : Type_) (s : ParserState) : Type_ :=
  if Tok_is s tok.arrow then snd (fst (parseType type (advance s)))
  else TupleType_getEmpty.

End Parser.

(** The patterns of the successful outcomes, in order. *)
Fixpoint successes {T} (results : list (ParseResult T)) : list T :=
  match results with
  | [] => []
  | Success v :: rest => v :: successes rest
  | _ :: rest => successes rest
  end.


(** ** Sample collaborators

    Small stand-ins for the external parsers, used to run the embedding on
    concrete token streams. *)

Module Sample.

(** A type is a single identifier; anything else is an error, diagnosed by
    the type parser itself (not modelled here). *)
Definition parseType (Result : Type_) (s : ParserState)
  : (bool * Type_) * ParserState :=
  match Kind (Tok s) with
  | tok.identifier => ((false, NominalType (Text (Tok s))), advance s)
  | _ => ((true, Result), s)
  end.

(** An expression is a single token: a numeric constant parses, an
    identifier parses but does not resolve (a semantic error), anything else
    is a syntax error. *)
Definition parseExpr (ID : diag.ID) (s : ParserState)
  : ParseResult Expr * ParserState :=
  match Kind (Tok s) with
  | tok.numeric_constant => (Success (ExprNode (Loc (Tok s))), advance s)
  | tok.identifier => (SemaError, advance s)
  | _ => (ParseError, diagnosed (Loc (Tok s)) ID [] s)
  end.

(** The name a pattern binds directly: that of a named pattern, seen through
    a type annotation. *)
Fixpoint getBoundName (pattern : Pattern) : Identifier :=
  match pattern with
  | NamedPattern var _ => VarName var
  | TypedPattern sub _ => getBoundName sub
  | _ => EmptyString
  end.

(** Token streams are written as kind and spelling; locations count from
    [start]. *)
Fixpoint lexFrom (start : SourceLoc) (l : list (tok.kind * string))
  : list Token :=
  match l with
  | [] => []
  | (k, t) :: rest => mkToken k t start :: lexFrom (S start) rest
  end.

Definition source (l : list (tok.kind * string)) : ParserState :=
  mkParserState (lexFrom 0 l) (List.length l) [] 0.

Definition lp := (tok.l_paren, "(").
Definition rp := (tok.r_paren, ")").
Definition id (name : string) := (tok.identifier, name).
Definition num (text : string) := (tok.numeric_constant, text).
Definition colon := (tok.colon, ":").
Definition comma := (tok.comma, ",").
Definition equal := (tok.equal, "=").
Definition arrow := (tok.arrow, "->").

(** The parser run with the sample collaborators. *)
Abbreviation parsePattern := (parsePattern parseType parseExpr getBoundName).
Abbreviation parsePatternAtom :=
  (parsePatternAtom parseType parseExpr getBoundName).
Abbreviation parsePatternTuple :=
  (parsePatternTuple parseType parseExpr getBoundName).
Abbreviation parsePatternTupleElts :=
  (parsePatternTupleElts parseType parseExpr getBoundName).
Abbreviation parseSignatureClauses :=
  (parseSignatureClauses parseType parseExpr getBoundName).
Abbreviation parseFunctionSignature :=
  (parseFunctionSignature parseType parseExpr getBoundName).
Abbreviation clauseResults :=
  (clauseResults parseType parseExpr getBoundName).
Abbreviation checkFullyTyped := (checkFullyTyped getBoundName).

(** The state [n] tokens further on. *)
Definition after (n : nat) (s : ParserState) : ParserState :=
  Nat.iter n advance s.

(** [(_)] *)
Definition grouping : ParserState := source [lp; id "_"; rp].

(** [(x: Int) -> Int] *)
Definition intToInt : ParserState :=
  source [lp; id "x"; colon; id "Int"; rp; arrow; id "Int"].

(** [(x: Int = bad)(y: Int) -> Int]: the default value of the first clause
    does not resolve. *)
Definition softClause : ParserState :=
  source [lp; id "x"; colon; id "Int"; equal; id "bad"; rp;
          lp; id "y"; colon; id "Int"; rp; arrow; id "Int"].

(** [(x = bad), y: Int)]: the rest of a tuple whose first element is a
    tuple with a default value that does not resolve. *)
Definition softElement : ParserState :=
  source [lp; id "x"; equal; id "bad"; rp; comma;
          id "y"; colon; id "Int"; rp].

(** [x = bad, y)]: an element whose own default value does not resolve. *)
Definition softDefault : ParserState :=
  source [id "x"; equal; id "bad"; comma; id "y"; rp].

(** [(x = bad): Int] and [(x = bad): )] *)
Definition softAtomTyped : ParserState :=
  source [lp; id "x"; equal; id "bad"; rp; colon; id "Int"].
Definition softAtomBadType : ParserState :=
  source [lp; id "x"; equal; id "bad"; rp; colon; rp].

(** [(x: Int] with the closing parenthesis missing. *)
Definition unclosed : ParserState :=
  source [lp; id "x"; colon; id "Int"].

Definition named (loc : SourceLoc) (name : string) : Pattern :=
  NamedPattern (mkVarDecl loc name NullType None 0) NullType.

(** The tree [parsePatternTuple] builds for [(a: Int, b: String)]. *)
Definition abTuple : Pattern :=
  TuplePattern 0
    [mkTuplePatternElt (TypedPattern (named 1 "a") (NominalType "Int")) None;
     mkTuplePatternElt (TypedPattern (named 5 "b") (NominalType "String"))
                       None]
    8 NullType.

Definition abType : Type_ :=
  TupleType [mkTupleTypeElt (NominalType "Int") "a" None;
             mkTupleTypeElt (NominalType "String") "b" None].

(** The clause [(y: Int)] of [softClause], as parsed and as checked. *)
Definition yType : Type_ :=
  TupleType [mkTupleTypeElt (NominalType "Int") "y" None].

Definition yClause (type : Type_) : Pattern :=
  TuplePattern 7
    [mkTuplePatternElt (TypedPattern (named 8 "y") (NominalType "Int")) None]
    11 type.

(** The tree for [((_: Int))]. *)
Definition nestedGroup : Pattern :=
  ParenPattern 0
    (ParenPattern 1 (TypedPattern (AnyPattern 2 NullType) (NominalType "Int"))
                  5 NullType)
    6 NullType.

(** [(a: Int, b: String)], [((_: Int))], [()] and [(x)(y: Int) -> Int] *)
Definition abSource : ParserState :=
  source [lp; id "a"; colon; id "Int"; comma; id "b"; colon; id "String"; rp].
Definition nestedSource : ParserState :=
  source [lp; lp; id "_"; colon; id "Int"; rp; rp].
Definition emptyTuple : ParserState := source [lp; rp].
Definition untypedClause : ParserState :=
  source [lp; id "x"; rp; lp; id "y"; colon; id "Int"; rp; arrow; id "Int"].

(** The tree for [(x, y)], with two leaves that no annotation covers. *)
Definition xyTuple : Pattern :=
  TuplePattern 0 [mkTuplePatternElt (named 1 "x") None;
                  mkTuplePatternElt (named 3 "y") None] 4 NullType.

(** The clauses of [untypedClause] as the signature parse leaves them. *)
Definition untypedClauseParams : list Pattern :=
  [TuplePattern 0 [mkTuplePatternElt (named 1 "x") None] 2 NullType;
   TuplePattern 3
     [mkTuplePatternElt (TypedPattern (named 4 "y") (NominalType "Int")) None]
     7 yType].

Definition untypedX : Diagnostic :=
  mkDiagnostic 1 diag.untyped_pattern_in_function_signature [(1, 1)].

End Sample.

(** ** Reasoning about parser code *)

(** What [Q] must hold of the value and state a computation returns with;
    [onAssert] and [onFuel] say whether a failed [assert] and a run out of
    fuel are tolerated. *)
Definition wp {A} (onAssert onFuel : Prop) (m : M A) (s : ParserState)
           (Q : A -> ParserState -> Prop) : Prop :=
  match m s with
  | Ret a s' => Q a s'
  | AssertFail => onAssert
  | OutOfFuel => onFuel
  end.

(** Number of tokens left before the end of the input. *)
Definition remaining (s : ParserState) : nat := List.length (Tokens s).

(** A parse never gives tokens back, and one that is not a hard failure has
    consumed at least one. *)
Definition consumes {T} (s : ParserState) (r : ParseResult T)
           (s' : ParserState) : Prop :=
  remaining s' <= remaining s /\
  (r <> ParseError -> remaining s' < remaining s).

Definition progresses {R A} (s : ParserState) (r : Flow R A)
           (s' : ParserState) : Prop :=
  remaining s' <= remaining s /\
  (forall a, r = Fallthrough a -> remaining s' < remaining s).

Definition isLParen (s : ParserState) : bool :=
  Tok_is s tok.l_paren || Tok_is s tok.l_paren_space.

(** ** Vocabulary for the checker and for parse results *)

Fixpoint firstSome {A B} (f : A -> option B) (l : list A) : option B :=
  match l with
  | [] => None
  | a :: rest => match f a with
                 | Some b => Some b
                 | None => firstSome f rest
                 end
  end.

(** The requirement spelled out at lines 88-90: all top-down paths to a leaf
    pattern pass through a [TypedPattern]. *)
Fixpoint fullyTyped (pattern : Pattern) : bool :=
  match pattern with
  | TypedPattern _ _ => true
  | ParenPattern _ sub _ _ => fullyTyped sub
  | TuplePattern _ fields _ _ =>
      forallb (fun elt => match elt with
                          | mkTuplePatternElt sub _ => fullyTyped sub
                          end) fields
  | NamedPattern _ _ => false
  | AnyPattern _ _ => false
  end.

(** The diagnostic for the first leaf, in declaration order, that no type
    annotation covers. *)
Fixpoint untypedLeaf (pattern : Pattern) : option Diagnostic :=
  match pattern with
  | TypedPattern _ _ => None
  | ParenPattern _ sub _ _ => untypedLeaf sub
  | TuplePattern _ fields _ _ =>
      firstSome (fun elt => match elt with
                            | mkTuplePatternElt sub _ => untypedLeaf sub
                            end) fields
  | NamedPattern var _ =>
      Some (mkDiagnostic (VarLoc var)
                         diag.untyped_pattern_in_function_signature
                         [(VarLoc var, VarLoc var)])
  | AnyPattern loc _ =>
      Some (mkDiagnostic loc diag.untyped_pattern_in_function_signature
                         [(loc, loc)])
  end.

(** The parser after the diagnostics [ds] were emitted. *)
Definition emitted (ds : list Diagnostic) (s : ParserState) : ParserState :=
  mkParserState (Tokens s) (EofLoc s) (Diags s ++ ds) (CurDeclContext s).

Definition report (d : option Diagnostic) (s : ParserState) : ParserState :=
  match d with
  | Some d => emitted [d] s
  | None => s
  end.

(** The tree with the type slots the checker may write emptied: those of the
    [Paren] and [Tuple] nodes that no [Typed] node covers. *)
Fixpoint resetTypes (pattern : Pattern) : Pattern :=
  match pattern with
  | ParenPattern lp sub rp _ => ParenPattern lp (resetTypes sub) rp NullType
  | TuplePattern lp fields rp _ =>
      TuplePattern lp
        (map (fun elt => match elt with
                         | mkTuplePatternElt sub init =>
                             mkTuplePatternElt (resetTypes sub) init
                         end) fields)
        rp NullType
  | NamedPattern _ _ => pattern
  | AnyPattern _ _ => pattern
  | TypedPattern _ _ => pattern
  end.

(** A tree as the parser builds it: no type anywhere but in the annotation
    of a [Typed] node. *)
Fixpoint unchecked (pattern : Pattern) : bool :=
  match pattern with
  | ParenPattern _ sub _ NullType => unchecked sub
  | TuplePattern _ fields _ NullType =>
      forallb (fun elt => match elt with
                          | mkTuplePatternElt sub _ => unchecked sub
                          end) fields
  | NamedPattern (mkVarDecl _ _ NullType None _) NullType => true
  | AnyPattern _ NullType => true
  | TypedPattern sub _ => unchecked sub
  | _ => false
  end.

(** The rule of lines 218-224 at every node of a tree: a [Paren] wraps a
    pattern without a bound name, and no [Tuple] is a single element without
    default and without bound name. *)
Fixpoint demoted (getBoundName : Pattern -> Identifier) (pattern : Pattern)
  : bool :=
  match pattern with
  | ParenPattern _ sub _ _ =>
      String.eqb (getBoundName sub) EmptyString && demoted getBoundName sub
  | TuplePattern _ fields _ _ =>
      negb (wrapsSingleAnonymous getBoundName fields) &&
      forallb (fun elt => match elt with
                          | mkTuplePatternElt sub _ => demoted getBoundName sub
                          end) fields
  | NamedPattern _ _ => true
  | AnyPattern _ _ => true
  | TypedPattern sub _ => demoted getBoundName sub
  end.

(** [s'] is [s] further on: tokens were consumed from the front, diagnostics
    were added at the end, and nothing else changed. *)
Definition extends (s s' : ParserState) : Prop :=
  (exists consumed, Tokens s = consumed ++ Tokens s') /\
  (exists ds, Diags s' = Diags s ++ ds) /\
  EofLoc s' = EofLoc s /\
  CurDeclContext s' = CurDeclContext s.

(** The diagnostics the fold of [parseFunctionSignature] emits for a clause
    list: the clauses are checked from the last to the first. *)
Definition foldDiagnostics (params : list Pattern) : list Diagnostic :=
  flat_map (fun param => match untypedLeaf param with
                         | Some d => [d]
                         | None => []
                         end) (rev params).

(** * Properties *)

Lemma tok_eqb_eq a b : tok.eqb a b = true <-> a = b.
Proof. unfold tok.eqb; destruct (tok.eq_dec a b); split; congruence. Qed.

Lemma tok_eqb_neq a b : tok.eqb a b = false <-> a <> b.
Proof. unfold tok.eqb; destruct (tok.eq_dec a b); split; congruence. Qed.

(** ** The checker *)

Section Checker.

Variable getBoundName : Pattern -> Identifier.

Local Abbreviation check := (checkFullyTyped getBoundName).
Local Abbreviation checkAll :=
  (checkFields getBoundName (checkFullyTyped getBoundName)).
Local Abbreviation checkedField := (checkedField getBoundName).
Local Abbreviation fieldTypeElt := (fieldTypeElt getBoundName).

Lemma checkFields_length chk P fields acc :
  List.length (snd (fst (fst (checkFields getBoundName chk P fields acc))))
  = List.length fields.
Proof.
  revert P acc; induction fields as [|[sub init] rest IH]; intros P acc; simpl.
  - reflexivity.
  - destruct (chk P sub) as [[err sub'] P1]. destruct err; simpl.
    + reflexivity.
    + specialize (IH P1 (acc ++ [mkTupleTypeElt (getType sub')
                                   (getBoundName sub') init])).
      destruct (checkFields _ _ _ _ _) as [[[e r] t] P2]; simpl in *.
      now rewrite IH.
Qed.

(** A check that succeeds emits nothing: the parser is as it was. *)
Lemma checkFields_ok_state fields :
  Forall (fun elt => forall P p' P',
              check P (getPattern elt) = (false, p', P') -> P' = P) fields ->
  forall P acc fields' typeElts P',
    checkAll P fields acc = (false, fields', typeElts, P') -> P' = P.
Proof.
  induction 1 as [|[sub init] rest Hsub _ IH]; intros P acc fields' typeElts P' E;
    simpl in E.
  - now inversion E.
  - destruct (check P sub) as [[err sub'] P1] eqn:Es. destruct err.
    + discriminate.
    + destruct (checkAll P1 rest _) as [[[e r] t] P2] eqn:Er.
      inversion E; subst.
      apply IH in Er. apply Hsub in Es. simpl in Es. congruence.
Qed.

Lemma checkFullyTyped_ok_state pattern :
  forall P p' P', check P pattern = (false, p', P') -> P' = P.
Proof.
  induction pattern as [lp sub rp ty IH|lp elts rp ty IH|var ty|loc ty|sub ty _]
    using Pattern_nested_ind; intros P p' P' E; simpl in E.
  - destruct (check P sub) as [[err sub'] P1] eqn:Es.
    destruct err; inversion E; subst. eauto.
  - destruct (checkAll P elts []) as [[[err f] t] P1] eqn:Ef.
    destruct err; inversion E; subst.
    eapply checkFields_ok_state; eauto.
  - discriminate.
  - discriminate.
  - now inversion E.
Qed.

Lemma checkFields_ok_same_state fields P acc fields' typeElts P' :
  checkAll P fields acc = (false, fields', typeElts, P') -> P' = P.
Proof.
  apply checkFields_ok_state. apply Forall_forall.
  intros x _ P0 p0 P0' H0. eapply checkFullyTyped_ok_state; eauto.
Qed.

(** The fields loop, success: every field was checked with success, in
    order, and [typeElts] grew by one component per field. *)
Lemma checkFields_ok fields :
  forall P acc fields' typeElts P',
    checkAll P fields acc = (false, fields', typeElts, P') ->
    Forall2 (checkedField P) fields fields' /\
    typeElts = acc ++ map fieldTypeElt fields'.
Proof.
  induction fields as [|[sub init] rest IH]; intros P acc fields' typeElts P' E;
    simpl in E.
  - inversion E; subst. split; [constructor | now rewrite app_nil_r].
  - destruct (check P sub) as [[err sub'] P1] eqn:Es. destruct err.
    + discriminate.
    + destruct (checkAll P1 rest _) as [[[e r] t] P2] eqn:Er.
      inversion E; subst.
      assert (P1 = P) by (eapply checkFullyTyped_ok_state; eauto). subst P1.
      apply IH in Er. destruct Er as [Hrest Ht]. split.
      * constructor; [split; simpl; auto | exact Hrest].
      * rewrite Ht, <- app_assoc. reflexivity.
Qed.

(** The fields loop, failure: the fields before the first failing one were
    checked with success, the failing one stopped the loop, and the fields
    after it were not visited. *)
Lemma checkFields_fail fields :
  forall P acc fields' typeElts P',
    checkAll P fields acc = (true, fields', typeElts, P') ->
    exists before before' sub init sub' after,
      fields = before ++ mkTuplePatternElt sub init :: after /\
      fields' = before' ++ mkTuplePatternElt sub' init :: after /\
      Forall2 (checkedField P) before before' /\
      check P sub = (true, sub', P').
Proof.
  induction fields as [|[sub init] rest IH]; intros P acc fields' typeElts P' E;
    simpl in E.
  - discriminate.
  - destruct (check P sub) as [[err sub'] P1] eqn:Es. destruct err.
    + inversion E; subst.
      exists [], [], sub, init, sub', rest. repeat split; auto.
    + destruct (checkAll P1 rest _) as [[[e r] t] P2] eqn:Er.
      inversion E; subst.
      assert (P1 = P) by (eapply checkFullyTyped_ok_state; eauto). subst P1.
      apply IH in Er.
      destruct Er as (b & b' & sb & i & sb' & a & -> & -> & Hb & Hc).
      exists (mkTuplePatternElt sub init :: b),
             (mkTuplePatternElt sub' init :: b'), sb, i, sb', a.
      repeat split; auto. constructor; [split; simpl; auto | exact Hb].
Qed.

(** Fields that a check leaves as they are, with success and without a
    diagnostic, make the fields loop do the same. *)
Lemma checkFields_fixed fields :
  Forall (fun elt => forall Q,
              check Q (getPattern elt) = (false, getPattern elt, Q)) fields ->
  forall Q acc,
    checkAll Q fields acc = (false, fields, acc ++ map fieldTypeElt fields, Q).
Proof.
  induction 1 as [|[sub init] rest Hsub _ IH]; intros Q acc; simpl.
  - now rewrite app_nil_r.
  - simpl in Hsub. rewrite Hsub. rewrite IH.
    rewrite <- app_assoc. reflexivity.
Qed.

(** C9: on a [Paren] node the check recurses into the sub-pattern.  When
    that fails, the failure is propagated and the node keeps the type slot it
    had; when it succeeds, the node's type becomes the sub-pattern's resolved
    type itself and the check succeeds, with no diagnostic. *)
Theorem checkFullyTyped_Paren P lp sub rp ty err sub' P' :
  check P sub = (err, sub', P') ->
  exists node',
    check P (ParenPattern lp sub rp ty) = (err, node', P') /\
    node' = ParenPattern lp sub' rp (getType node') /\
    (err = true -> getType node' = ty) /\
    (err = false -> getType node' = getType sub' /\ P' = P).
Proof.
  intros E. simpl. rewrite E. destruct err.
  - eexists; split; [reflexivity|]. simpl. repeat split; auto; discriminate.
  - eexists; split; [reflexivity|]. simpl.
    split; [reflexivity|]. split; [discriminate|]. intros _.
    split; [reflexivity|]. eapply checkFullyTyped_ok_state; eauto.
Qed.

(** C4: on a [Tuple] node the check visits the element patterns in
    declaration order.  The first element whose check fails ends the whole
    check with failure, the elements after it are not visited and the node
    keeps the type slot it had.  When every element succeeds the node gets the
    tuple type whose components are, in element order, the element pattern's
    type, its bound name and the element's default expression. *)
Theorem checkFullyTyped_Tuple P lp fields rp ty err node' P' :
  check P (TuplePattern lp fields rp ty) = (err, node', P') ->
  (err = false ->
   exists fields',
     Forall2 (checkedField P) fields fields' /\
     node' = TuplePattern lp fields' rp (TupleType (map fieldTypeElt fields')) /\
     P' = P)
  /\
  (err = true ->
   exists before before' sub init sub' after,
     fields = before ++ mkTuplePatternElt sub init :: after /\
     Forall2 (checkedField P) before before' /\
     check P sub = (true, sub', P') /\
     node' = TuplePattern lp (before' ++ mkTuplePatternElt sub' init :: after)
                          rp ty).
Proof.
  intros E. simpl in E.
  destruct (checkAll P fields []) as [[[e f] t] P1] eqn:Ef.
  destruct e; inversion E; subst; split; try discriminate; intros _.
  - apply checkFields_fail in Ef.
    destruct Ef as (b & b' & sb & i & sb' & a & -> & -> & Hb & Hc).
    exists b, b', sb, i, sb', a. auto.
  - assert (P' = P) by (eapply checkFields_ok_same_state; eauto).
    subst P'. apply checkFields_ok in Ef. destruct Ef as [Hf ->].
    exists f. auto.
Qed.

(** C7: the check is idempotent.  A tree on which it has succeeded is left
    exactly as it is by any later run, types of all nodes included, and the
    later run succeeds without a diagnostic. *)
Theorem checkFullyTyped_idempotent pattern :
  forall P p' P',
    checkFullyTyped getBoundName P pattern = (false, p', P') ->
    forall Q, checkFullyTyped getBoundName Q p' = (false, p', Q).
Proof.
  induction pattern as [lp sub rp ty IH|lp elts rp ty IH|var ty|loc ty|sub ty _]
    using Pattern_nested_ind; intros P p' P' E Q; simpl in E.
  - destruct (check P sub) as [[err sub'] P1] eqn:Es.
    destruct err; inversion E; subst. simpl.
    rewrite (IH _ _ _ Es Q). reflexivity.
  - destruct (checkAll P elts []) as [[[err f] t] P1] eqn:Ef.
    destruct err; inversion E; subst. simpl.
    assert (P' = P) by (eapply checkFields_ok_same_state; eauto).
    subst P'. apply checkFields_ok in Ef. destruct Ef as [Hf ->].
    assert (Hfix : Forall (fun elt => forall Q,
                 check Q (getPattern elt) = (false, getPattern elt, Q)) f).
    { clear - IH Hf. induction Hf as [|e e' l l' [_ Hc] _ IHf].
      - constructor.
      - inversion IH; subst. constructor; eauto. }
    rewrite (checkFields_fixed Hfix Q []). reflexivity.
  - discriminate.
  - discriminate.
  - inversion E; subst. reflexivity.
Qed.

(** What the check answers and what it does to the tree are the same in
    every parser state: the state only collects the diagnostics. *)
Lemma checkFields_state_indep fields :
  Forall (fun elt => forall P Q,
              fst (check P (getPattern elt)) = fst (check Q (getPattern elt)))
         fields ->
  forall P Q acc,
    fst (checkAll P fields acc) = fst (checkAll Q fields acc).
Proof.
  induction 1 as [|[sub init] rest Hsub _ IH]; intros P Q acc; simpl.
  - reflexivity.
  - specialize (Hsub P Q). simpl in Hsub.
    destruct (check P sub) as [[e1 sub1] P1].
    destruct (check Q sub) as [[e2 sub2] Q1].
    simpl in Hsub. inversion Hsub; subst. destruct e2; [reflexivity|].
    specialize (IH P1 Q1 (acc ++ [mkTupleTypeElt (getType sub2)
                                    (getBoundName sub2) init])).
    destruct (checkAll P1 rest _) as [[[e r] t] P2].
    destruct (checkAll Q1 rest _) as [[[e' r'] t'] Q2].
    simpl in IH. inversion IH; subst. reflexivity.
Qed.

Lemma checkFullyTyped_state_indep pattern :
  forall P Q, fst (check P pattern) = fst (check Q pattern).
Proof.
  induction pattern as [lp sub rp ty IH|lp elts rp ty IH|var ty|loc ty|sub ty _]
    using Pattern_nested_ind; intros P Q; simpl; try reflexivity.
  - specialize (IH P Q).
    destruct (check P sub) as [[e1 sub1] P1].
    destruct (check Q sub) as [[e2 sub2] Q1].
    simpl in IH. inversion IH; subst. destruct e2; reflexivity.
  - pose proof (checkFields_state_indep IH P Q []) as H.
    destruct (checkAll P elts []) as [[[e r] t] P2].
    destruct (checkAll Q elts []) as [[[e' r'] t'] Q2].
    simpl in H. inversion H; subst. destruct e'; reflexivity.
Qed.

Lemma clauseType_state_indep P Q param :
  clauseType getBoundName P param = clauseType getBoundName Q param.
Proof.
  unfold clauseType. pose proof (checkFullyTyped_state_indep param P Q) as H.
  destruct (check P param) as [[e1 p1] P1].
  destruct (check Q param) as [[e2 p2] Q1].
  simpl in H. inversion H; subst. reflexivity.
Qed.

(** The fold over the clauses: from the last clause to the first, each
    clause wraps the type built so far in a function type. *)
Lemma buildFunctionType_fold Q params :
  forall P type params' type' P',
    buildFunctionType getBoundName P params type = (params', type', P') ->
    type' = fold_right (fun param result =>
                          FunctionType (clauseType getBoundName Q param) result)
                       type params /\
    List.length params' = List.length params.
Proof.
  induction params as [|param later IH]; intros P type params' type' P' E;
    simpl in E.
  - inversion E; subst. auto.
  - destruct (buildFunctionType getBoundName P later type)
      as [[later' type1] P1] eqn:El.
    destruct (check P1 param) as [[err param'] P2] eqn:Ec.
    inversion E; subst. apply IH in El. destruct El as [-> Hlen].
    simpl. split; [|now rewrite Hlen].
    rewrite (clauseType_state_indep Q P1). unfold clauseType. rewrite Ec.
    reflexivity.
Qed.

End Checker.

(** ** Rules for the monad and the primitives *)

Section Rules.

Context {A B : Type} (af ofl : Prop).

Lemma wp_ret (a : A) s (Q : A -> ParserState -> Prop) :
  Q a s -> wp af ofl (ret a) s Q.
Proof. auto. Qed.

Lemma wp_bind (m : M A) (k : A -> M B) s (Q : B -> ParserState -> Prop) :
  wp af ofl m s (fun a s' => wp af ofl (k a) s' Q) -> wp af ofl (bind m k) s Q.
Proof.
  unfold wp, bind. destruct (m s); auto.
Qed.

Lemma wp_conseq (m : M A) s (Q Q' : A -> ParserState -> Prop) :
  wp af ofl m s Q -> (forall a s', Q a s' -> Q' a s') -> wp af ofl m s Q'.
Proof.
  unfold wp. destruct (m s); auto.
Qed.

Lemma wp_returned (m : M A) s (Q : A -> ParserState -> Prop) a s' :
  wp af ofl m s Q -> m s = Ret a s' -> Q a s'.
Proof.
  unfold wp. intros H E. now rewrite E in H.
Qed.

Lemma wp_call (f : ParserState -> A * ParserState) s
      (Q : A -> ParserState -> Prop) :
  Q (fst (f s)) (snd (f s)) -> wp af ofl (call f) s Q.
Proof.
  unfold wp, call. destruct (f s); auto.
Qed.

End Rules.

Lemma wp_get af ofl s (Q : ParserState -> ParserState -> Prop) :
  Q s s -> wp af ofl get s Q.
Proof. auto. Qed.

Lemma wp_assert af ofl b s (Q : unit -> ParserState -> Prop) :
  (b = false -> af) -> (b = true -> Q tt s) -> wp af ofl (assert b) s Q.
Proof.
  unfold wp, assert. destruct b; auto.
Qed.

Lemma wp_consumeToken af ofl s (Q : SourceLoc -> ParserState -> Prop) :
  Q (Loc (Tok s)) (advance s) -> wp af ofl consumeToken s Q.
Proof. auto. Qed.

Lemma wp_consumeTokenK af ofl K s (Q : SourceLoc -> ParserState -> Prop) :
  (Tok_is s K = false -> af) ->
  (Tok_is s K = true -> Q (Loc (Tok s)) (advance s)) ->
  wp af ofl (consumeTokenK K) s Q.
Proof.
  unfold wp, consumeTokenK, bind, get, assert, consumeToken.
  destruct (Tok_is s K); auto.
Qed.

Lemma consumeIf_eq K s :
  consumeIf K s = if Tok_is s K then Ret true (advance s) else Ret false s.
Proof.
  unfold consumeIf, consumeTokenK, bind, get, assert, consumeToken, ret,
    Tok_isNot.
  destruct (Tok_is s K) eqn:E; simpl; [rewrite E|]; reflexivity.
Qed.

Lemma wp_consumeIf af ofl K s (Q : bool -> ParserState -> Prop) :
  (Tok_is s K = true -> Q true (advance s)) ->
  (Tok_is s K = false -> Q false s) ->
  wp af ofl (consumeIf K) s Q.
Proof.
  unfold wp. rewrite consumeIf_eq. destruct (Tok_is s K); auto.
Qed.

Lemma wp_skipUntil af ofl T s (Q : unit -> ParserState -> Prop) :
  Q tt (skipped T s) -> wp af ofl (skipUntil T) s Q.
Proof. auto. Qed.

Lemma wp_diagnose af ofl loc id ranges s (Q : unit -> ParserState -> Prop) :
  Q tt (diagnosed loc id ranges s) -> wp af ofl (diagnose loc id ranges) s Q.
Proof. auto. Qed.

Lemma wp_outOfFuel af (ofl : Prop) A s (Q : A -> ParserState -> Prop) :
  ofl -> wp af ofl outOfFuel s Q.
Proof. auto. Qed.

(** ** Token bookkeeping *)

Lemma remaining_advance s : remaining (advance s) <= remaining s.
Proof.
  unfold remaining, advance; simpl. destruct (Tokens s); simpl; lia.
Qed.

Lemma Tok_is_remaining s K :
  Tok_is s K = true -> K <> tok.eof -> 0 < remaining s.
Proof.
  unfold Tok_is, Tok, remaining. destruct (Tokens s); simpl.
  - intros H. apply tok_eqb_eq in H. congruence.
  - lia.
Qed.

Lemma remaining_advance_lt s :
  0 < remaining s -> remaining (advance s) < remaining s.
Proof.
  unfold remaining, advance; simpl. destruct (Tokens s); simpl; lia.
Qed.

Lemma skipTokens_length T toks :
  List.length (skipTokens T toks) <= List.length toks.
Proof.
  induction toks as [|t rest IH]; simpl; [lia|].
  destruct (tok.eqb (Kind t) T); lia.
Qed.

Lemma remaining_skipped T s : remaining (skipped T s) <= remaining s.
Proof. apply skipTokens_length. Qed.

Lemma remaining_diagnosed loc id ranges s :
  remaining (diagnosed loc id ranges s) = remaining s.
Proof. reflexivity. Qed.

Lemma isLParen_remaining s : isLParen s = true -> 0 < remaining s.
Proof.
  unfold isLParen. intros H. apply orb_true_iff in H.
  destruct H as [H|H]; eapply Tok_is_remaining; eauto; discriminate.
Qed.

(** ** The pattern parser *)

Section ParserProperties.

Variable parseType : Type_ -> ParserState -> (bool * Type_) * ParserState.
Variable parseExpr : diag.ID -> ParserState -> ParseResult Expr * ParserState.
Variable getBoundName : Pattern -> Identifier.

Local Abbreviation parsePattern :=
  (parsePattern parseType parseExpr getBoundName).
Local Abbreviation parsePatternAtom :=
  (parsePatternAtom parseType parseExpr getBoundName).
Local Abbreviation parsePatternTuple :=
  (parsePatternTuple parseType parseExpr getBoundName).
Local Abbreviation parsePatternTupleElts :=
  (parsePatternTupleElts parseType parseExpr getBoundName).
Local Abbreviation parsePatternTupleElt := (parsePatternTupleElt parseExpr).
Local Abbreviation makeTupleOrParen := (makeTupleOrParen getBoundName).
Local Abbreviation wrapsSingleAnonymous := (wrapsSingleAnonymous getBoundName).
Local Abbreviation parseSignatureClauses :=
  (parseSignatureClauses parseType parseExpr getBoundName).
Local Abbreviation parseFunctionSignature :=
  (parseFunctionSignature parseType parseExpr getBoundName).
Local Abbreviation buildFunctionType := (buildFunctionType getBoundName).
Local Abbreviation check := (checkFullyTyped getBoundName).
Local Abbreviation LoopTurn := (LoopTurn parseType parseExpr getBoundName).
Local Abbreviation clauseResults :=
  (clauseResults parseType parseExpr getBoundName).
Local Abbreviation clauseType := (clauseType getBoundName).
Local Abbreviation resultType := (resultType parseType).

(** *** One unfolding of each function *)

Lemma parsePattern_S fuel :
  parsePattern (S fuel) =
  (pattern <- parsePatternAtom fuel ;;
   if isParseError pattern then ret ParseError
   else
     hasColon <- consumeIf tok.colon ;;
     if hasColon then
       r <- call (parseType NullType) ;;
       let '(err, type) := r in
       if err then ret ParseError
       else
         match pattern with
         | Success p => ret (Success (TypedPattern p type))
         | _ => ret pattern
         end
     else ret pattern).
Proof. reflexivity. Qed.

Lemma parsePatternAtom_S fuel :
  parsePatternAtom (S fuel) =
  (s <- get ;;
   match Kind (Tok s) with
   | tok.l_paren | tok.l_paren_space => parsePatternTuple fuel
   | tok.identifier =>
       consumeTokenK tok.identifier ;;;
       if String.eqb (Text (Tok s)) "_"
       then ret (Success (AnyPattern (Loc (Tok s)) NullType))
       else
         ret (Success
                (NamedPattern
                   (mkVarDecl (Loc (Tok s)) (Text (Tok s)) NullType None
                              (CurDeclContext s)) NullType))
   | _ =>
       diagnose (Loc (Tok s)) diag.expected_pattern [] ;;;
       ret ParseError
   end).
Proof. reflexivity. Qed.

Lemma parsePatternTuple_S fuel :
  parsePatternTuple (S fuel) =
  (s <- get ;;
   assert (Tok_is s tok.l_paren || Tok_is s tok.l_paren_space) ;;;
   lp <- consumeToken ;;
   s <- get ;;
   r <- (if Tok_isNot s tok.r_paren
         then parsePatternTupleElts fuel [] false
         else ret (Fallthrough ([], false))) ;;
   match r with
   | Returned res => ret res
   | Fallthrough (elts, hasSemaError) =>
       rp <- consumeTokenK tok.r_paren ;;
       if hasSemaError then ret SemaError
       else ret (Success (makeTupleOrParen lp elts rp))
   end).
Proof. reflexivity. Qed.

(** The element loop from its condition on: another turn after a comma,
    else the check for the closing parenthesis. *)
#[warnings="-inconsistent-scopes"]
Local Abbreviation loopTail fuel elts hasSemaError :=
  (hasComma <- consumeIf tok.comma ;;
   if hasComma then parsePatternTupleElts fuel elts hasSemaError
   else
     s <- get ;;
     if Tok_isNot s tok.r_paren then
       diagnose (Loc (Tok s)) diag.expected_rparen_tuple_pattern_list [] ;;;
       skipUntil tok.r_paren ;;;
       ret (Returned ParseError)
     else ret (Fallthrough (elts, hasSemaError))).

Lemma parsePatternTupleElts_S fuel elts hasSemaError :
  parsePatternTupleElts (S fuel) elts hasSemaError =
  (r <- parsePatternTupleElt (parsePattern fuel) elts hasSemaError ;;
   match r with
   | Returned res => ret (Returned res)
   | Fallthrough (elts, hasSemaError) => loopTail fuel elts hasSemaError
   end).
Proof. reflexivity. Qed.

Lemma parseSignatureClauses_S fuel params hasSemaError :
  parseSignatureClauses (S fuel) params hasSemaError =
  (r <- parseSignatureClause (parsePatternTuple fuel) params hasSemaError ;;
   match r with
   | Returned res => ret (Returned res)
   | Fallthrough (params, hasSemaError) =>
       s <- get ;;
       if Tok_is s tok.l_paren || Tok_is s tok.l_paren_space
       then parseSignatureClauses fuel params hasSemaError
       else ret (Fallthrough (params, hasSemaError))
   end).
Proof. reflexivity. Qed.

(** *** The element loop body, case by case *)

(** What one turn of the element loop does once the pattern parse has
    returned [pattern] in state [s1]. *)
Lemma parsePatternTupleElt_returns (m : M (ParseResult Pattern)) elts hs s
      pattern s1 :
  m s = Ret pattern s1 ->
  parsePatternTupleElt m elts hs s =
  match pattern with
  | ParseError => Ret (Returned ParseError) (skipped tok.r_paren s1)
  | _ =>
      let push init :=
        match pattern with
        | Success p => elts ++ [mkTuplePatternElt p init]
        | _ => elts
        end in
      if Tok_is s1 tok.equal then
        match parseExpr diag.expected_initializer_expr (advance s1) with
        | (ParseError, s2) => Ret (Returned ParseError) (skipped tok.r_paren s2)
        | (SemaError, s2) => Ret (Fallthrough (push None, true)) s2
        | (Success e, s2) =>
            Ret (Fallthrough (push (Some e), hs || isSemaError pattern)) s2
        end
      else Ret (Fallthrough (push None, hs || isSemaError pattern)) s1
  end.
Proof.
  intros E. unfold parsePatternTupleElt, bind at 1. rewrite E.
  destruct pattern as [p| |]; try reflexivity.
  - unfold bind at 1. rewrite consumeIf_eq.
    destruct (Tok_is s1 tok.equal); simpl.
    + unfold bind, call.
      destruct (parseExpr _ (advance s1)) as [[e| |] s2]; simpl;
        try reflexivity.
      now rewrite orb_false_r.
    + now rewrite orb_false_r.
  - unfold bind at 1. rewrite consumeIf_eq.
    destruct (Tok_is s1 tok.equal); simpl.
    + unfold bind, call.
      destruct (parseExpr _ (advance s1)) as [[e| |] s2]; simpl;
        try reflexivity.
      now rewrite orb_true_r.
    + now rewrite orb_true_r.
Qed.

Lemma parsePatternTupleElt_stuck (m : M (ParseResult Pattern)) elts hs s :
  (m s = AssertFail -> parsePatternTupleElt m elts hs s = AssertFail) /\
  (m s = OutOfFuel -> parsePatternTupleElt m elts hs s = OutOfFuel).
Proof.
  unfold parsePatternTupleElt, bind.
  split; intros ->; reflexivity.
Qed.

(** *** parsePattern *)

(** C8 (amended): a hard failure of the atom is a hard failure of
    [parsePattern].  After a soft failure of the atom a following colon is
    consumed and the type is parsed all the same; the result is then the soft
    failure again when the type parses, and a hard failure when the type
    parser reports an error.  Without a colon the soft failure is returned
    as it is. *)
Theorem parsePattern_atom_failure fuel s atom s1 :
  parsePatternAtom fuel s = Ret atom s1 ->
  (atom = ParseError -> parsePattern (S fuel) s = Ret ParseError s1) /\
  (atom = SemaError -> Tok_is s1 tok.colon = true ->
   forall err type s2,
     parseType NullType (advance s1) = ((err, type), s2) ->
     parsePattern (S fuel) s
     = Ret (if err then ParseError else SemaError) s2) /\
  (atom = SemaError -> Tok_is s1 tok.colon = false ->
   parsePattern (S fuel) s = Ret SemaError s1).
Proof.
  intros E. rewrite parsePattern_S. repeat split.
  - intros ->. unfold bind at 1. rewrite E. reflexivity.
  - intros -> C err type s2 T. unfold bind at 1. rewrite E.
    cbn [isParseError]. unfold bind at 1.
    rewrite consumeIf_eq, C. unfold bind, call. rewrite T.
    destruct err; reflexivity.
  - intros -> C. unfold bind at 1. rewrite E. cbn [isParseError].
    unfold bind at 1. rewrite consumeIf_eq, C. reflexivity.
Qed.

(** *** parsePatternTuple: grouping parentheses or tuple *)

Lemma wrapsSingleAnonymous_true elts :
  wrapsSingleAnonymous elts = true <->
  exists elt, elts = [elt] /\ getInit elt = None /\
              getBoundName (getPattern elt) = EmptyString.
Proof.
  unfold wrapsSingleAnonymous. split.
  - destruct elts as [|elt [|? ?]]; try discriminate.
    destruct (getInit elt) eqn:I; try discriminate.
    intros H. apply String.eqb_eq in H. eauto.
  - intros (elt & -> & I & N). rewrite I. now apply String.eqb_eq.
Qed.

Lemma makeTupleOrParen_kind lp elts rp :
  getKind (makeTupleOrParen lp elts rp) = Paren <->
  wrapsSingleAnonymous elts = true.
Proof.
  unfold makeTupleOrParen.
  destruct (wrapsSingleAnonymous elts) eqn:W.
  - apply wrapsSingleAnonymous_true in W. destruct W as (elt & -> & _).
    simpl. tauto.
  - simpl. split; discriminate.
Qed.

(** The element loop leaves the function only with a hard failure. *)
Lemma parsePatternTupleElts_returned fuel :
  forall elts hs s res s',
    parsePatternTupleElts fuel elts hs s = Ret (Returned res) s' ->
    res = ParseError.
Proof.
  induction fuel as [|fuel IH]; intros elts hs s res s' E; [discriminate|].
  rewrite parsePatternTupleElts_S in E. unfold bind at 1 in E.
  destruct (parsePattern fuel s) as [pattern s1| |] eqn:P.
  - rewrite (parsePatternTupleElt_returns _ elts hs _ P) in E.
    assert (Htail : forall elts' hs' s2,
               loopTail fuel elts' hs' s2 = Ret (Returned res) s' ->
               res = ParseError).
    { intros elts' hs' s2. unfold bind at 1. rewrite consumeIf_eq.
      destruct (Tok_is s2 tok.comma).
      - apply IH.
      - unfold bind, get, diagnose, skipUntil, ret.
        destruct (Tok_isNot s2 tok.r_paren); intros H; now inversion H. }
    destruct pattern as [q| |]; cbv zeta in E.
    + destruct (Tok_is s1 tok.equal).
      * destruct (parseExpr _ _) as [[e| |] s2]; eauto.
        unfold ret in E. now inversion E.
      * eauto.
    + unfold ret in E. now inversion E.
    + destruct (Tok_is s1 tok.equal).
      * destruct (parseExpr _ _) as [[e| |] s2]; eauto.
        unfold ret in E. now inversion E.
      * eauto.
  - rewrite (proj1 (parsePatternTupleElt_stuck _ elts hs s) P) in E.
    discriminate.
  - rewrite (proj2 (parsePatternTupleElt_stuck _ elts hs s) P) in E.
    discriminate.
Qed.

(** C1: a tuple-pattern parse that succeeds yields a [Paren] pattern exactly
    when the element list it parsed has one element, that element has no
    default expression and the bound name of its pattern is empty; the
    [Paren] then wraps that element's pattern.  In every other case it yields
    the [Tuple] pattern of the parsed elements. *)
Theorem parsePatternTuple_Paren_or_Tuple fuel s p s' :
  parsePatternTuple fuel s = Ret (Success p) s' ->
  exists fuel' elts s1,
    fuel = S fuel' /\
    (if Tok_isNot (advance s) tok.r_paren
     then parsePatternTupleElts fuel' [] false (advance s)
     else Ret (Fallthrough ([], false)) (advance s))
    = Ret (Fallthrough (elts, false)) s1 /\
    s' = advance s1 /\
    (getKind p = Paren <->
     exists elt, elts = [elt] /\ getInit elt = None /\
                 getBoundName (getPattern elt) = EmptyString) /\
    (getKind p = Paren ->
     exists elt, elts = [elt] /\
                 p = ParenPattern (Loc (Tok s)) (getPattern elt)
                                  (Loc (Tok s1)) NullType) /\
    (getKind p <> Paren ->
     p = TuplePattern (Loc (Tok s)) elts (Loc (Tok s1)) NullType).
Proof.
  intros E. destruct fuel as [|fuel']; [discriminate|].
  rewrite parsePatternTuple_S in E.
  unfold bind at 1, get, bind at 1, assert in E.
  destruct (Tok_is s tok.l_paren || Tok_is s tok.l_paren_space);
    [|discriminate].
  unfold bind at 1, consumeToken, bind at 1, bind at 1 in E.
  set (loop := if Tok_isNot (advance s) tok.r_paren
               then parsePatternTupleElts fuel' [] false
               else ret (Fallthrough ([], false))) in E.
  assert (Hloop : loop (advance s)
                  = if Tok_isNot (advance s) tok.r_paren
                    then parsePatternTupleElts fuel' [] false (advance s)
                    else Ret (Fallthrough ([], false)) (advance s)).
  { unfold loop. destruct (Tok_isNot (advance s) tok.r_paren); reflexivity. }
  destruct (loop (advance s)) as [[res|[elts hs]] s1| |]; try discriminate.
  - exfalso. unfold ret in E. inversion E; subst res.
    destruct (Tok_isNot (advance s) tok.r_paren); [|discriminate].
    symmetry in Hloop. apply parsePatternTupleElts_returned in Hloop.
    discriminate.
  - unfold bind, consumeTokenK, bind, get, assert, consumeToken in E.
    destruct (Tok_is s1 tok.r_paren); [|discriminate].
    destruct hs; [discriminate|].
    unfold ret in E. inversion E; subst.
    exists fuel', elts, s1. rewrite <- Hloop.
    split; [reflexivity|]. split; [reflexivity|]. split; [reflexivity|].
    split; [|split].
    + rewrite makeTupleOrParen_kind. apply wrapsSingleAnonymous_true.
    + intros K. apply makeTupleOrParen_kind in K. unfold makeTupleOrParen.
      rewrite K. apply wrapsSingleAnonymous_true in K.
      destruct K as (elt & -> & _). eauto.
    + intros K. unfold makeTupleOrParen.
      destruct (wrapsSingleAnonymous elts) eqn:W; [|reflexivity].
      exfalso. apply K. now apply makeTupleOrParen_kind.
Qed.

(** *** The element loop: going on and giving up *)

Lemma parsePatternTupleElts_continue fuel elts hs s elts' hs' s2 :
  parsePatternTupleElt (parsePattern fuel) elts hs s
  = Ret (Fallthrough (elts', hs')) s2 ->
  Tok_is s2 tok.comma = true ->
  parsePatternTupleElts (S fuel) elts hs s
  = parsePatternTupleElts fuel elts' hs' (advance s2).
Proof.
  intros E C. rewrite parsePatternTupleElts_S. unfold bind at 1. rewrite E.
  unfold bind at 1. rewrite consumeIf_eq, C. reflexivity.
Qed.

Lemma parsePatternTupleElts_give_up fuel elts hs s res s2 :
  parsePatternTupleElt (parsePattern fuel) elts hs s = Ret (Returned res) s2 ->
  parsePatternTupleElts (S fuel) elts hs s = Ret (Returned res) s2.
Proof.
  intros E. rewrite parsePatternTupleElts_S. unfold bind at 1. rewrite E.
  reflexivity.
Qed.

Lemma parsePatternTupleElts_unclosed fuel elts hs s elts' hs' s2 :
  parsePatternTupleElt (parsePattern fuel) elts hs s
  = Ret (Fallthrough (elts', hs')) s2 ->
  Tok_is s2 tok.comma = false ->
  Tok_is s2 tok.r_paren = false ->
  parsePatternTupleElts (S fuel) elts hs s
  = Ret (Returned ParseError)
        (skipped tok.r_paren
           (diagnosed (Loc (Tok s2)) diag.expected_rparen_tuple_pattern_list
                      [] s2)).
Proof.
  intros E C R. rewrite parsePatternTupleElts_S. unfold bind at 1. rewrite E.
  unfold bind at 1. rewrite consumeIf_eq, C.
  unfold bind, get, Tok_isNot. rewrite R. reflexivity.
Qed.

Lemma LoopTurn_result fuel0 s0 fuel elts hs s :
  LoopTurn fuel0 s0 fuel elts hs s ->
  parsePatternTupleElts fuel0 [] false s0
  = parsePatternTupleElts fuel elts hs s.
Proof.
  induction 1 as [|fuel elts hs s elts' hs' s' _ IH E C]; [reflexivity|].
  rewrite IH. now apply parsePatternTupleElts_continue.
Qed.

Lemma parsePatternTuple_give_up fuel s res s' :
  isLParen s = true ->
  Tok_is (advance s) tok.r_paren = false ->
  parsePatternTupleElts fuel [] false (advance s) = Ret (Returned res) s' ->
  parsePatternTuple (S fuel) s = Ret res s'.
Proof.
  intros L R E. rewrite parsePatternTuple_S.
  unfold bind at 1, get, bind at 1, assert. unfold isLParen in L. rewrite L.
  unfold bind at 1, consumeToken, bind at 1, bind at 1, Tok_isNot.
  rewrite R. cbn [negb]. rewrite E. reflexivity.
Qed.

Lemma skipTokens_upto T before t after :
  Forall (fun x => Kind x <> T) before ->
  Kind t = T ->
  skipTokens T (before ++ t :: after) = after.
Proof.
  intros Hb Ht. induction Hb as [|x l Hx _ IH]; simpl.
  - rewrite (proj2 (tok_eqb_eq _ _) Ht). reflexivity.
  - rewrite (proj2 (tok_eqb_neq _ _) Hx). exact IH.
Qed.

Lemma skipTokens_none T toks :
  Forall (fun x => Kind x <> T) toks -> skipTokens T toks = [].
Proof.
  induction 1 as [|x l Hx _ IH]; simpl; [reflexivity|].
  rewrite (proj2 (tok_eqb_neq _ _) Hx). exact IH.
Qed.

(** C3 (amended): a soft failure inside an element does not end the element
    loop.  When the default expression is the soft failure, the failure is
    recorded and the element is appended with its pattern and no default
    expression.  When the element's pattern is the soft failure, the failure
    is recorded and nothing is appended, whatever follows it short of a hard
    failure of the default expression.  Either way a following comma starts
    the next turn with that list and that flag. *)
Theorem parsePatternTupleElt_soft_failure fuel elts hs s pattern s1 :
  parsePattern fuel s = Ret pattern s1 ->
  (forall p s2,
      pattern = Success p ->
      Tok_is s1 tok.equal = true ->
      parseExpr diag.expected_initializer_expr (advance s1) = (SemaError, s2) ->
      parsePatternTupleElt (parsePattern fuel) elts hs s
      = Ret (Fallthrough (elts ++ [mkTuplePatternElt p None], true)) s2) /\
  (pattern = SemaError ->
   Tok_is s1 tok.equal = false ->
   parsePatternTupleElt (parsePattern fuel) elts hs s
   = Ret (Fallthrough (elts, true)) s1) /\
  (forall initR s2,
      pattern = SemaError ->
      Tok_is s1 tok.equal = true ->
      parseExpr diag.expected_initializer_expr (advance s1) = (initR, s2) ->
      initR <> ParseError ->
      parsePatternTupleElt (parsePattern fuel) elts hs s
      = Ret (Fallthrough (elts, true)) s2) /\
  (forall elts' hs' s2,
      parsePatternTupleElt (parsePattern fuel) elts hs s
      = Ret (Fallthrough (elts', hs')) s2 ->
      Tok_is s2 tok.comma = true ->
      parsePatternTupleElts (S fuel) elts hs s
      = parsePatternTupleElts fuel elts' hs' (advance s2)).
Proof.
  intros E. rewrite (parsePatternTupleElt_returns _ elts hs _ E).
  split; [|split; [|split]].
  - intros p s2 -> Q I. cbv zeta. now rewrite Q, I.
  - intros -> Q. cbv zeta. rewrite Q. now rewrite orb_true_r.
  - intros initR s2 -> Q I NE. cbv zeta. rewrite Q, I.
    destruct initR; try reflexivity; try congruence.
    now rewrite orb_true_r.
  - intros elts' hs' s2 B C.
    rewrite <- (parsePatternTupleElt_returns _ elts hs _ E) in B.
    now apply parsePatternTupleElts_continue.
Qed.

(** C6: in any turn of the element loop of a tuple parse, a hard failure of
    the element's pattern, a hard failure of its default expression, and a
    token that is neither comma nor closing parenthesis after the element,
    each make the whole tuple parse a hard failure, which carries no element
    list, after [skipUntil(tok::r_paren)]; the last case first emits the
    diagnostic whose text is "expected ')'".  The skip drops the tokens up
    to and including the next closing parenthesis, or all of them when there
    is none. *)
Theorem parsePatternTuple_hard_failure fuel0 s0 fuel elts hs s pattern s1 :
  isLParen s0 = true ->
  Tok_is (advance s0) tok.r_paren = false ->
  LoopTurn fuel0 (advance s0) (S fuel) elts hs s ->
  parsePattern fuel s = Ret pattern s1 ->
  (pattern = ParseError ->
   parsePatternTuple (S fuel0) s0
   = Ret ParseError (skipped tok.r_paren s1)) /\
  (forall s2,
      pattern <> ParseError ->
      Tok_is s1 tok.equal = true ->
      parseExpr diag.expected_initializer_expr (advance s1) = (ParseError, s2) ->
      parsePatternTuple (S fuel0) s0
      = Ret ParseError (skipped tok.r_paren s2)) /\
  (forall elts' hs' s2,
      parsePatternTupleElt (parsePattern fuel) elts hs s
      = Ret (Fallthrough (elts', hs')) s2 ->
      Tok_is s2 tok.comma = false ->
      Tok_is s2 tok.r_paren = false ->
      parsePatternTuple (S fuel0) s0
      = Ret ParseError
            (skipped tok.r_paren
               (diagnosed (Loc (Tok s2))
                          diag.expected_rparen_tuple_pattern_list [] s2)) /\
      diag.text diag.expected_rparen_tuple_pattern_list = "expected ')'") /\
  (forall st before t after,
      Tokens st = before ++ t :: after ->
      Forall (fun x => Kind x <> tok.r_paren) before ->
      Kind t = tok.r_paren ->
      Tokens (skipped tok.r_paren st) = after) /\
  (forall st,
      Forall (fun x => Kind x <> tok.r_paren) (Tokens st) ->
      Tokens (skipped tok.r_paren st) = []).
Proof.
  intros L R T E. apply LoopTurn_result in T.
  split; [|split; [|split; [|split]]].
  - intros ->. apply parsePatternTuple_give_up; auto. rewrite T.
    apply parsePatternTupleElts_give_up.
    now rewrite (parsePatternTupleElt_returns _ elts hs _ E).
  - intros s2 NE Q I. apply parsePatternTuple_give_up; auto. rewrite T.
    apply parsePatternTupleElts_give_up.
    rewrite (parsePatternTupleElt_returns _ elts hs _ E).
    destruct pattern; try congruence; cbv zeta; now rewrite Q, I.
  - intros elts' hs' s2 B C P. split; [|reflexivity].
    apply parsePatternTuple_give_up; auto. rewrite T.
    eapply parsePatternTupleElts_unclosed; eauto.
  - intros st before t after Ht Hb Hk. simpl. rewrite Ht.
    now apply skipTokens_upto.
  - intros st H. simpl. now apply skipTokens_none.
Qed.

(** *** parseFunctionSignature *)

(** The clause loop appends the patterns of the clauses that parsed with
    success, records the soft failures, and falls through only when no clause
    was a hard failure. *)
Lemma parseSignatureClauses_params fuel :
  forall params hs s params' hs' s',
    parseSignatureClauses fuel params hs s
    = Ret (Fallthrough (params', hs')) s' ->
    params' = params ++ successes (clauseResults fuel s) /\
    Forall (fun r => r <> ParseError) (clauseResults fuel s) /\
    hs' = hs || existsb isSemaError (clauseResults fuel s).
Proof.
  induction fuel as [|fuel IH]; intros params hs s params' hs' s' E;
    [discriminate|].
  rewrite parseSignatureClauses_S in E.
  unfold parseSignatureClause, bind at 1, bind at 1 in E. simpl.
  destruct (parsePatternTuple fuel s) as [[p| |] s1| |]; try discriminate.
  - unfold ret, bind, get in E.
    destruct (Tok_is s1 tok.l_paren || Tok_is s1 tok.l_paren_space).
    + apply IH in E. destruct E as (-> & HF & ->). simpl.
      rewrite <- app_assoc. repeat split; auto.
      constructor; [discriminate|exact HF].
    + inversion E; subst. simpl. rewrite orb_false_r.
      repeat split; auto. constructor; [discriminate|constructor].
  - unfold ret, bind, get in E.
    destruct (Tok_is s1 tok.l_paren || Tok_is s1 tok.l_paren_space).
    + apply IH in E. destruct E as (-> & HF & ->). simpl.
      rewrite orb_true_r. repeat split; auto.
      constructor; [discriminate|exact HF].
    + inversion E; subst. simpl. rewrite app_nil_r, orb_true_r.
      repeat split; auto. constructor; [discriminate|constructor].
Qed.

(** The clause loop leaves the function only with the failure flag. *)
Lemma parseSignatureClauses_returned fuel :
  forall params hs s b params' s',
    parseSignatureClauses fuel params hs s = Ret (Returned (b, params')) s' ->
    b = true.
Proof.
  induction fuel as [|fuel IH]; intros params hs s b params' s' E;
    [discriminate|].
  rewrite parseSignatureClauses_S in E.
  unfold parseSignatureClause, bind at 1, bind at 1 in E.
  destruct (parsePatternTuple fuel s) as [[p| |] s1| |]; try discriminate.
  - unfold ret, bind, get in E.
    destruct (Tok_is s1 tok.l_paren || Tok_is s1 tok.l_paren_space);
      [eauto|discriminate].
  - unfold ret in E. now inversion E.
  - unfold ret, bind, get in E.
    destruct (Tok_is s1 tok.l_paren || Tok_is s1 tok.l_paren_space);
      [eauto|discriminate].
Qed.

(** A signature parse that answers [false] went through the clause loop,
    the optional result type and the fold. *)
Lemma parseFunctionSignature_success fuel params type s params' type' s' :
  parseFunctionSignature fuel params type s = Ret (false, params', type') s' ->
  exists params1 hs s1 s2,
    parseSignatureClauses fuel params false s
    = Ret (Fallthrough (params1, hs)) s1 /\
    (Tok_is s1 tok.arrow = true ->
     fst (fst (parseType type (advance s1))) = false /\
     s2 = snd (parseType type (advance s1))) /\
    (Tok_is s1 tok.arrow = false -> s2 = s1) /\
    buildFunctionType s2 params1 (resultType type s1) = (params', type', s').
Proof.
  unfold parseFunctionSignature, resultType. unfold bind at 1.
  destruct (parseSignatureClauses fuel params false s)
    as [[[b ps]|[params1 hs]] s1| |] eqn:C; try discriminate.
  { unfold ret. intros E. inversion E; subst.
    apply parseSignatureClauses_returned in C. discriminate. }
  unfold bind at 1. rewrite consumeIf_eq.
  destruct (Tok_is s1 tok.arrow) eqn:A.
  - unfold bind, call.
    destruct (parseType type (advance s1)) as [[[|] ty] s2] eqn:T; simpl.
    + unfold ret. intros E. inversion E.
    + destruct (buildFunctionType s2 params1 ty) as [[ps' ty'] s3] eqn:B.
      intros E. inversion E; subst.
      exists params1, hs, s1, s2.
      split; [reflexivity|]. split; [now rewrite T|].
      split; [congruence|]. now rewrite A, T.
  - unfold bind, ret.
    destruct (buildFunctionType s1 params1 TupleType_getEmpty)
      as [[ps' ty'] s3] eqn:B.
    intros E. inversion E; subst.
    exists params1, hs, s1, s1.
    split; [reflexivity|]. split; [congruence|].
    split; [reflexivity|]. now rewrite A.
Qed.

Lemma fold_FunctionType_map (f : Pattern -> Type_) result params :
  fold_right (fun param acc => FunctionType (f param) acc) result params
  = fold_right FunctionType result (map f params).
Proof.
  induction params as [|q l IH]; simpl; [reflexivity|]. now rewrite IH.
Qed.

(** C2 (amended): a clause that parses with success appends its pattern to
    the parameter-clause list; a clause that is a soft failure appends
    nothing (it only sets the flag) and the loop goes on.  So when no clause
    is a hard failure, the number of clause patterns added, and with it the
    number of function-type levels put around the result type, is the number
    of clauses that parsed with success: the number of clauses less the
    soft failures. *)
Theorem parseFunctionSignature_clause_count fuel params type s
        params' type' s' :
  parseFunctionSignature fuel params type s = Ret (false, params', type') s' ->
  let clauses := clauseResults fuel s in
  Forall (fun r => r <> ParseError) clauses /\
  List.length (successes clauses) + List.length (filter isSemaError clauses)
  = List.length clauses /\
  List.length params' = List.length params + List.length (successes clauses) /\
  exists hs s1 paramTypes,
    parseSignatureClauses fuel params false s
    = Ret (Fallthrough (params ++ successes clauses, hs)) s1 /\
    List.length paramTypes = List.length params' /\
    type' = fold_right FunctionType (resultType type s1) paramTypes.
Proof.
  intros E clauses. apply parseFunctionSignature_success in E.
  destruct E as (params1 & hs & s1 & s2 & C & _ & _ & B).
  pose proof (parseSignatureClauses_params _ _ _ _ C) as (-> & HF & _).
  fold clauses in HF |- *.
  apply (buildFunctionType_fold getBoundName s) in B. destruct B as [-> Hlen].
  split; [exact HF|]. split; [|split].
  - clear - HF. induction HF as [|r l Hr _ IH]; simpl; [reflexivity|].
    destruct r; simpl; try congruence; lia.
  - rewrite Hlen, length_app. reflexivity.
  - exists hs, s1, (map (clauseType s) (params ++ successes clauses)).
    split; [exact C|]. split; [now rewrite length_map|].
    apply fold_FunctionType_map.
Qed.

(** C5: the type of a signature is built from the return type, which is the
    type parsed after an arrow or else the empty tuple type, by folding the
    parameter clauses from the last to the first; each step wraps the type so
    far in [FunctionType] with, as parameter type, the clause's synthesized
    type when its check succeeds and the empty tuple type when it fails.  A
    failing check does not stop the fold. *)
Theorem parseFunctionSignature_type fuel params type s params' type' s' :
  parseFunctionSignature fuel params type s = Ret (false, params', type') s' ->
  exists params1 hs s1,
    parseSignatureClauses fuel params false s
    = Ret (Fallthrough (params1, hs)) s1 /\
    (Tok_is s1 tok.arrow = true ->
     parseType type (advance s1)
     = ((false, resultType type s1), snd (parseType type (advance s1)))) /\
    (Tok_is s1 tok.arrow = false -> resultType type s1 = TupleType []) /\
    (forall Q,
        type' = fold_right (fun param result =>
                              FunctionType (clauseType Q param) result)
                           (resultType type s1) params1) /\
    (forall Q param err param' Q',
        check Q param = (err, param', Q') ->
        clauseType Q param = if err then TupleType [] else getType param').
Proof.
  intros E. apply parseFunctionSignature_success in E.
  destruct E as (params1 & hs & s1 & s2 & C & HA & _ & B).
  exists params1, hs, s1. split; [exact C|]. split; [|split; [|split]].
  - intros A. destruct (HA A) as [Herr _]. unfold resultType. rewrite A.
    destruct (parseType type (advance s1)) as [[err ty] s3]. simpl in *.
    now subst.
  - intros A. unfold resultType. now rewrite A.
  - intros Q. now apply (buildFunctionType_fold getBoundName Q) in B.
  - intros Q param err param' Q' H. unfold clauseType. now rewrite H.
Qed.

(** *** No assertion fires *)

(** The pattern parser proper never trips an [assert]; the tuple parser
    does not either when it is entered at an opening parenthesis; and the
    element loop falls through only in front of a closing parenthesis. *)
Lemma parse_asserts fuel :
  (forall s, wp False True (parsePattern fuel) s (fun _ _ => True)) /\
  (forall s, wp False True (parsePatternAtom fuel) s (fun _ _ => True)) /\
  (forall s, isLParen s = true ->
             wp False True (parsePatternTuple fuel) s (fun _ _ => True)) /\
  (forall elts hs s,
      wp False True (parsePatternTupleElts fuel elts hs) s
         (fun r s' => forall a, r = Fallthrough a ->
                                Tok_is s' tok.r_paren = true)).
Proof.
  induction fuel as [|fuel (IHp & IHa & IHt & IHl)].
  { repeat split; intros; exact I. }
  repeat split.
  - intros s. rewrite parsePattern_S. apply wp_bind.
    eapply wp_conseq; [apply IHa|]. intros pattern s1 _.
    destruct (isParseError pattern); [exact I|].
    apply wp_bind, wp_consumeIf; intros _; [|exact I].
    apply wp_bind, wp_call.
    destruct (fst (parseType NullType (advance s1))) as [[|] type];
      [exact I|]. destruct pattern; exact I.
  - intros s. rewrite parsePatternAtom_S. apply wp_bind, wp_get.
    destruct (Kind (Tok s)) eqn:K;
      try (apply wp_bind, wp_diagnose; exact I).
    + apply wp_bind, wp_consumeTokenK.
      * unfold Tok_is. rewrite K. discriminate.
      * intros _. destruct (String.eqb _ _); exact I.
    + apply IHt. unfold isLParen, Tok_is. now rewrite K.
    + apply IHt. unfold isLParen, Tok_is. now rewrite K.
  - intros s L. rewrite parsePatternTuple_S. apply wp_bind, wp_get.
    apply wp_bind, wp_assert.
    { unfold isLParen in L. congruence. }
    intros _. apply wp_bind, wp_consumeToken. apply wp_bind, wp_get.
    apply wp_bind. destruct (Tok_isNot (advance s) tok.r_paren) eqn:R.
    + eapply wp_conseq; [apply IHl|]. intros r s1 Hr.
      destruct r as [res|[elts hs]]; [exact I|].
      apply wp_bind, wp_consumeTokenK.
      * rewrite (Hr _ eq_refl). discriminate.
      * intros _. destruct hs; exact I.
    + apply wp_ret. apply wp_bind, wp_consumeTokenK.
      * unfold Tok_isNot in R. destruct (Tok_is (advance s) tok.r_paren);
          discriminate.
      * intros _. exact I.
  - intros elts hs s. rewrite parsePatternTupleElts_S. apply wp_bind.
    specialize (IHp s). unfold wp in IHp |- *.
    destruct (parsePattern fuel s) as [pattern s1| |] eqn:E.
    + rewrite (parsePatternTupleElt_returns _ elts hs _ E).
      assert (Hloop : forall elts' hs' s2,
                 wp False True (loopTail fuel elts' hs') s2
                    (fun r s' => forall a, r = Fallthrough a ->
                                           Tok_is s' tok.r_paren = true)).
      { intros elts' hs' s2. apply wp_bind, wp_consumeIf; intros C.
        - apply IHl.
        - apply wp_bind, wp_get. unfold Tok_isNot.
          destruct (Tok_is s2 tok.r_paren) eqn:R; simpl.
          + apply wp_ret. auto.
          + apply wp_bind, wp_diagnose. apply wp_bind, wp_skipUntil.
            apply wp_ret. discriminate. }
      destruct pattern as [p| |].
      * cbv zeta. destruct (Tok_is s1 tok.equal).
        -- destruct (parseExpr _ _) as [[e| |] s2];
             [apply Hloop|discriminate|apply Hloop].
        -- apply Hloop.
      * discriminate.
      * cbv zeta. destruct (Tok_is s1 tok.equal).
        -- destruct (parseExpr _ _) as [[e| |] s2];
             [apply Hloop|discriminate|apply Hloop].
        -- apply Hloop.
    + contradiction.
    + now rewrite (proj2 (parsePatternTupleElt_stuck _ elts hs s) E).
Qed.

Lemma wp_no_assert {A} (m : M A) s Q :
  wp False True m s Q -> m s <> AssertFail.
Proof.
  unfold wp. destruct (m s); auto; discriminate.
Qed.

Lemma parseSignatureClauses_asserts fuel :
  forall params hs s,
    isLParen s = true ->
    wp False True (parseSignatureClauses fuel params hs) s (fun _ _ => True).
Proof.
  induction fuel as [|fuel IH]; intros params hs s L; [exact I|].
  rewrite parseSignatureClauses_S. apply wp_bind.
  unfold parseSignatureClause. apply wp_bind.
  eapply wp_conseq; [apply parse_asserts, L|]. intros pattern s1 _.
  destruct pattern as [p| |]; apply wp_ret.
  - apply wp_bind, wp_get.
    destruct (Tok_is s1 tok.l_paren || Tok_is s1 tok.l_paren_space) eqn:L1.
    + apply IH, L1.
    + exact I.
  - exact I.
  - apply wp_bind, wp_get.
    destruct (Tok_is s1 tok.l_paren || Tok_is s1 tok.l_paren_space) eqn:L1.
    + apply IH, L1.
    + exact I.
Qed.

Lemma parseFunctionSignature_asserts fuel params type s :
  isLParen s = true ->
  wp False True (parseFunctionSignature fuel params type) s (fun _ _ => True).
Proof.
  intros L. unfold parseFunctionSignature. apply wp_bind.
  eapply wp_conseq; [apply parseSignatureClauses_asserts, L|].
  intros r s1 _. destruct r as [[b ps]|[ps hs]]; [exact I|].
  apply wp_bind, wp_consumeIf; intros _.
  - apply wp_bind, wp_bind, wp_call.
    destruct (fst (parseType type (advance s1))) as [[|] ty].
    + exact I.
    + unfold wp, bind, ret.
      destruct (buildFunctionType _ ps ty) as [[ps' ty'] s3]. exact I.
  - unfold wp, bind, ret.
    destruct (buildFunctionType _ ps TupleType_getEmpty) as [[ps' ty'] s3].
    exact I.
Qed.

(** C10: [parsePatternTuple] asserts that it is entered at an opening
    parenthesis, and trips the assertion otherwise.
    [parseFunctionSignature] calls it once unconditionally and then only
    while the current token is an opening parenthesis: a signature parse
    entered at an opening parenthesis never trips an assertion, in the clause
    loop or in the nested tuple parses. *)
Theorem parseFunctionSignature_assertion :
  (forall fuel s,
      isLParen s = false -> parsePatternTuple (S fuel) s = AssertFail) /\
  (forall fuel params type s,
      isLParen s = false ->
      parseFunctionSignature (S (S fuel)) params type s = AssertFail) /\
  (forall fuel params type s,
      isLParen s = true ->
      parseFunctionSignature fuel params type s <> AssertFail).
Proof.
  split; [|split].
  - intros fuel s L. rewrite parsePatternTuple_S.
    unfold bind, get, assert. unfold isLParen in L. now rewrite L.
  - intros fuel params type s L. unfold parseFunctionSignature.
    rewrite parseSignatureClauses_S. unfold parseSignatureClause.
    rewrite parsePatternTuple_S.
    unfold bind, get, assert. unfold isLParen in L. now rewrite L.
  - intros fuel params type s L.
    apply wp_no_assert with (Q := fun _ _ => True).
    now apply parseFunctionSignature_asserts.
Qed.

(** *** Tokens are only ever consumed *)

Section Consumption.

(** The external parsers read the token stream forwards. *)
Hypothesis parseType_consumes :
  forall Result s, remaining (snd (parseType Result s)) <= remaining s.
Hypothesis parseExpr_consumes :
  forall ID s, remaining (snd (parseExpr ID s)) <= remaining s.

Lemma parsePatternTupleElt_progresses ofl (m : M (ParseResult Pattern))
      elts hs s :
  wp True ofl m s (consumes s) ->
  wp True ofl (parsePatternTupleElt m elts hs) s (progresses s).
Proof.
  unfold wp at 1. intros H. unfold wp.
  destruct (m s) as [pattern s1| |] eqn:E.
  - rewrite (parsePatternTupleElt_returns _ elts hs _ E).
    destruct H as [Hle Hlt].
    assert (Hex := parseExpr_consumes diag.expected_initializer_expr
                                      (advance s1)).
    assert (Hadv := remaining_advance s1).
    destruct pattern as [p| |].
    + assert (remaining s1 < remaining s) by (apply Hlt; discriminate).
      cbv zeta. destruct (Tok_is s1 tok.equal).
      * destruct (parseExpr _ _) as [[e| |] s2]; simpl in Hex; split;
          try discriminate; try (intros; lia).
        -- pose proof (remaining_skipped tok.r_paren s2). lia.
      * split; intros; lia.
    + pose proof (remaining_skipped tok.r_paren s1). split; [lia|discriminate].
    + assert (remaining s1 < remaining s) by (apply Hlt; discriminate).
      cbv zeta. destruct (Tok_is s1 tok.equal).
      * destruct (parseExpr _ _) as [[e| |] s2]; simpl in Hex; split;
          try discriminate; try (intros; lia).
        -- pose proof (remaining_skipped tok.r_paren s2). lia.
      * split; intros; lia.
  - now rewrite (proj1 (parsePatternTupleElt_stuck _ elts hs s) E).
  - now rewrite (proj2 (parsePatternTupleElt_stuck _ elts hs s) E).
Qed.

(** Fuel is tolerated to run out ([ofl]) or there is enough of it: each of
    the four functions spends one unit per call, and between two calls of the
    same function a token is consumed. *)
Lemma parse_consumes (ofl : Prop) fuel :
  (forall s, ofl \/ 4 * remaining s + 3 <= fuel ->
             wp True ofl (parsePattern fuel) s (consumes s)) /\
  (forall s, ofl \/ 4 * remaining s + 2 <= fuel ->
             wp True ofl (parsePatternAtom fuel) s (consumes s)) /\
  (forall s, ofl \/ 4 * remaining s + 1 <= fuel ->
             wp True ofl (parsePatternTuple fuel) s (consumes s)) /\
  (forall elts hs s, ofl \/ 4 * remaining s + 4 <= fuel ->
      wp True ofl (parsePatternTupleElts fuel elts hs) s (progresses s)).
Proof.
  induction fuel as [|fuel (IHp & IHa & IHt & IHl)].
  { repeat split; intros; apply wp_outOfFuel;
      match goal with H : _ \/ _ |- _ => destruct H as [H|H]; [exact H|lia] end. }
  repeat split.
  - intros s F. rewrite parsePattern_S. apply wp_bind.
    eapply wp_conseq; [apply IHa; destruct F; [left; auto|right; lia]|].
    intros pattern s1 [Hle Hlt].
    destruct (isParseError pattern) eqn:PE.
    { apply wp_ret. split; [lia|congruence]. }
    assert (remaining s1 < remaining s).
    { apply Hlt. intros ->. discriminate. }
    pose proof (remaining_advance s1).
    apply wp_bind, wp_consumeIf; intros _.
    + apply wp_bind, wp_call.
      pose proof (parseType_consumes NullType (advance s1)) as Hty.
      destruct (parseType NullType (advance s1)) as [[[|] type] s2];
        simpl in *.
      * apply wp_ret. split; [lia|congruence].
      * destruct pattern; apply wp_ret; split; intros; lia.
    + apply wp_ret. split; intros; lia.
  - intros s F. rewrite parsePatternAtom_S. apply wp_bind, wp_get.
    destruct (Kind (Tok s)) eqn:K;
      try (apply wp_bind, wp_diagnose; apply wp_ret; unfold consumes;
           rewrite remaining_diagnosed; split; [lia|congruence]).
    + apply wp_bind, wp_consumeTokenK; [auto|]. intros T.
      assert (remaining (advance s) < remaining s).
      { apply remaining_advance_lt. eapply Tok_is_remaining; eauto.
        discriminate. }
      destruct (String.eqb _ _); apply wp_ret; split; intros; lia.
    + apply IHt. destruct F; [left; auto|right; lia].
    + apply IHt. destruct F; [left; auto|right; lia].
  - intros s F. rewrite parsePatternTuple_S. apply wp_bind, wp_get.
    apply wp_bind, wp_assert; [auto|]. intros L.
    assert (remaining (advance s) < remaining s).
    { apply remaining_advance_lt, isLParen_remaining. exact L. }
    apply wp_bind, wp_consumeToken. apply wp_bind, wp_get.
    apply wp_bind. destruct (Tok_isNot (advance s) tok.r_paren) eqn:R.
    + eapply wp_conseq; [apply IHl; destruct F; [left; auto|right; lia]|].
      intros r s1 [Hle Hlt].
      destruct r as [res|[elts hs]].
      * apply wp_ret. split; intros; lia.
      * apply wp_bind, wp_consumeTokenK; [auto|]. intros _.
        pose proof (remaining_advance s1).
        destruct hs; apply wp_ret; split; intros; lia.
    + apply wp_ret. apply wp_bind, wp_consumeTokenK; [auto|]. intros _.
      pose proof (remaining_advance (advance s)).
      apply wp_ret; split; intros; lia.
  - intros elts hs s F. rewrite parsePatternTupleElts_S. apply wp_bind.
    eapply wp_conseq.
    { apply parsePatternTupleElt_progresses, IHp.
      destruct F; [left; auto|right; lia]. }
    intros r s1 [Hle Hlt]. destruct r as [res|[elts' hs']].
    + apply wp_ret. split; [lia|discriminate].
    + specialize (Hlt _ eq_refl).
      apply wp_bind, wp_consumeIf; intros _.
      * pose proof (remaining_advance s1).
        eapply wp_conseq; [apply IHl; destruct F; [left; auto|right; lia]|].
        intros r s2 [Hle2 Hlt2].
        split; [lia|]. intros a Ha. specialize (Hlt2 _ Ha). lia.
      * apply wp_bind, wp_get. destruct (Tok_isNot s1 tok.r_paren).
        -- apply wp_bind, wp_diagnose. apply wp_bind, wp_skipUntil.
           apply wp_ret. split; [|discriminate].
           pose proof (remaining_skipped tok.r_paren
                         (diagnosed (Loc (Tok s1))
                            diag.expected_rparen_tuple_pattern_list [] s1)).
           rewrite remaining_diagnosed in *. lia.
        -- apply wp_ret. split; intros; lia.
Qed.

Lemma parseSignatureClauses_consumes (ofl : Prop) fuel :
  forall params hs s,
    ofl \/ 4 * remaining s + 2 <= fuel ->
    wp True ofl (parseSignatureClauses fuel params hs) s
       (fun _ s' => remaining s' <= remaining s).
Proof.
  induction fuel as [|fuel IH]; intros params hs s F.
  { apply wp_outOfFuel. destruct F; [auto|lia]. }
  rewrite parseSignatureClauses_S. apply wp_bind.
  unfold parseSignatureClause. apply wp_bind.
  eapply wp_conseq.
  { apply parse_consumes. destruct F; [left; auto|right; lia]. }
  intros pattern s1 [Hle Hlt].
  assert (Hnext : forall ps b,
             pattern <> ParseError ->
             wp True ofl
                (s <- get ;;
                 if Tok_is s tok.l_paren || Tok_is s tok.l_paren_space
                 then parseSignatureClauses fuel ps b
                 else ret (Fallthrough (ps, b))) s1
                (fun _ s' => remaining s' <= remaining s)).
  { intros ps b NE. specialize (Hlt NE). apply wp_bind, wp_get.
    destruct (Tok_is s1 tok.l_paren || Tok_is s1 tok.l_paren_space).
    - eapply wp_conseq; [apply IH; destruct F; [left; auto|right; lia]|].
      simpl. intros; lia.
    - apply wp_ret. lia. }
  destruct pattern as [p| |]; apply wp_ret.
  - apply Hnext. discriminate.
  - apply wp_ret. exact Hle.
  - apply Hnext. discriminate.
Qed.

Lemma wp_returns {A} (m : M A) s Q Q' :
  wp False True m s Q -> wp True False m s Q' -> exists a s', m s = Ret a s'.
Proof.
  unfold wp. destruct (m s); try contradiction; eauto.
Qed.

(** With fuel for four calls per token the pattern parser returns. *)
Theorem parsePattern_returns fuel s :
  4 * remaining s + 3 <= fuel ->
  exists r s', parsePattern fuel s = Ret r s'.
Proof.
  intros F. eapply wp_returns.
  - apply parse_asserts.
  - apply parse_consumes. now right.
Qed.

Theorem parsePatternTuple_returns fuel s :
  isLParen s = true ->
  4 * remaining s + 1 <= fuel ->
  exists r s', parsePatternTuple fuel s = Ret r s'.
Proof.
  intros L F. eapply wp_returns.
  - apply parse_asserts, L.
  - apply parse_consumes. now right.
Qed.

(** X13: a signature parse entered at an opening parenthesis returns: with
    external parsers that never give tokens back, fuel for four calls per
    remaining token (and two more) is enough, so the recursion and both loops
    end on every input. *)
Theorem parseFunctionSignature_returns fuel params type s :
  isLParen s = true ->
  4 * remaining s + 2 <= fuel ->
  exists r s', parseFunctionSignature fuel params type s = Ret r s'.
Proof.
  intros L F. eapply wp_returns with (Q' := fun _ _ => True).
  - apply parseFunctionSignature_asserts, L.
  - unfold parseFunctionSignature. apply wp_bind.
    eapply wp_conseq; [apply parseSignatureClauses_consumes; now right|].
    intros r s1 _. destruct r as [[b ps]|[ps hs]]; [exact I|].
    apply wp_bind, wp_consumeIf; intros _.
    + apply wp_bind, wp_bind, wp_call.
      destruct (fst (parseType type (advance s1))) as [[|] ty].
      * exact I.
      * unfold wp, bind, ret.
        destruct (buildFunctionType _ ps ty) as [[ps' ty'] s3]. exact I.
    + unfold wp, bind, ret.
      destruct (buildFunctionType _ ps TupleType_getEmpty) as [[ps' ty'] s3].
      exact I.
Qed.

End Consumption.

End ParserProperties.

(** * Concrete runs *)

Section Runs.

Import Sample.

Local Abbreviation noState := (mkParserState [] 0 [] 0).

Example parse_grouping :
  Sample.parsePatternTuple 10 grouping
  = Ret (Success (ParenPattern 0 (AnyPattern 1 NullType) 2 NullType))
        (after 3 grouping).
Proof. reflexivity. Qed.

Example parse_named_single :
  Sample.parsePatternTuple 10 (source [lp; id "x"; rp])
  = Ret (Success (TuplePattern 0 [mkTuplePatternElt (named 1 "x") None] 2
                               NullType))
        (after 3 (source [lp; id "x"; rp])).
Proof. reflexivity. Qed.

Example parse_defaulted_single :
  Sample.parsePatternTuple 10 (source [lp; id "_"; equal; num "1"; rp])
  = Ret (Success (TuplePattern 0
                    [mkTuplePatternElt (AnyPattern 1 NullType)
                                       (Some (ExprNode 3))] 4 NullType))
        (after 5 (source [lp; id "_"; equal; num "1"; rp])).
Proof. reflexivity. Qed.

Example parse_ab_tuple :
  Sample.parsePatternTuple 20
    (source [lp; id "a"; colon; id "Int"; comma;
             id "b"; colon; id "String"; rp])
  = Ret (Success abTuple)
        (after 9 (source [lp; id "a"; colon; id "Int"; comma;
                          id "b"; colon; id "String"; rp])).
Proof. reflexivity. Qed.

Example check_ab_tuple :
  Sample.checkFullyTyped noState abTuple
  = (false, setType abTuple abType, noState).
Proof. reflexivity. Qed.

Example signature_intToInt :
  exists params,
    Sample.parseFunctionSignature 30 [] NullType intToInt
    = Ret (false, params,
           FunctionType
             (TupleType [mkTupleTypeElt (NominalType "Int") "x" None])
             (NominalType "Int"))
          (after 7 intToInt).
Proof. eexists. reflexivity. Qed.

(** [(x)(y: Int) -> Int]: one diagnostic, for [x], and the degraded type. *)
Example signature_untyped_clause :
  exists params,
    Sample.parseFunctionSignature 30 [] NullType
      (source [lp; id "x"; rp; lp; id "y"; colon; id "Int"; rp;
               arrow; id "Int"])
    = Ret (false, params,
           FunctionType (TupleType [])
             (FunctionType
                (TupleType [mkTupleTypeElt (NominalType "Int") "y" None])
                (NominalType "Int")))
          (mkParserState [] 10
             [mkDiagnostic 1 diag.untyped_pattern_in_function_signature
                           [(1, 1)]] 0).
Proof. eexists. reflexivity. Qed.

Example signature_unclosed :
  Sample.parseFunctionSignature 30 [] NullType unclosed
  = Ret (true, [], NullType)
        (mkParserState [] 4
           [mkDiagnostic 4 diag.expected_rparen_tuple_pattern_list []] 0).
Proof. reflexivity. Qed.

(** ** The theorems at concrete inputs *)

(** C1 at [(_)]: one element, no default, no bound name. *)
Lemma parsePatternTuple_Paren_or_Tuple_witness :
  Sample.parsePatternTuple 10 grouping
  = Ret (Success (ParenPattern 0 (AnyPattern 1 NullType) 2 NullType))
        (after 3 grouping)
  /\
  exists fuel' elts s1,
    10 = S fuel' /\
    (if Tok_isNot (advance grouping) tok.r_paren
     then Sample.parsePatternTupleElts fuel' [] false (advance grouping)
     else Ret (Fallthrough ([], false)) (advance grouping))
    = Ret (Fallthrough (elts, false)) s1 /\
    after 3 grouping = advance s1 /\
    (getKind (ParenPattern 0 (AnyPattern 1 NullType) 2 NullType) = Paren <->
     exists elt, elts = [elt] /\ getInit elt = None /\
                 Sample.getBoundName (getPattern elt) = EmptyString) /\
    (getKind (ParenPattern 0 (AnyPattern 1 NullType) 2 NullType) = Paren ->
     exists elt, elts = [elt] /\
                 ParenPattern 0 (AnyPattern 1 NullType) 2 NullType
                 = ParenPattern (Loc (Tok grouping)) (getPattern elt)
                                (Loc (Tok s1)) NullType) /\
    (getKind (ParenPattern 0 (AnyPattern 1 NullType) 2 NullType) <> Paren ->
     ParenPattern 0 (AnyPattern 1 NullType) 2 NullType
     = TuplePattern (Loc (Tok grouping)) elts (Loc (Tok s1)) NullType).
Proof.
  split; [reflexivity|].
  apply (parsePatternTuple_Paren_or_Tuple Sample.parseType Sample.parseExpr
           Sample.getBoundName 10 grouping).
  reflexivity.
Defined.

(** C2 as stated fails at [(x: Int = bad)(y: Int) -> Int]: two clauses,
    neither a hard failure, and yet a single clause pattern and a single
    function-type level over the result type [Int]. *)
Lemma parseFunctionSignature_drops_soft_clause :
  Sample.parseFunctionSignature 30 [] NullType softClause
  = Ret (false, [yClause yType], FunctionType yType (NominalType "Int"))
        (after 14 softClause) /\
  Sample.clauseResults 30 softClause = [SemaError; Success (yClause NullType)] /\
  List.length (Sample.clauseResults 30 softClause) = 2 /\
  List.length [yClause yType] <> 2.
Proof.
  split; [vm_compute; reflexivity|]. split; [vm_compute; reflexivity|].
  split; [vm_compute; reflexivity|]. discriminate.
Defined.

(** C2 (amended) at the same signature. *)
Lemma parseFunctionSignature_clause_count_witness :
  Sample.parseFunctionSignature 30 [] NullType softClause
  = Ret (false, [yClause yType], FunctionType yType (NominalType "Int"))
        (after 14 softClause) /\
  let clauses := Sample.clauseResults 30 softClause in
  Forall (fun r => r <> ParseError) clauses /\
  List.length (successes clauses) + List.length (filter isSemaError clauses)
  = List.length clauses /\
  List.length [yClause yType]
  = List.length (@nil Pattern) + List.length (successes clauses) /\
  exists hs s1 paramTypes,
    Sample.parseSignatureClauses 30 [] false softClause
    = Ret (Fallthrough ([] ++ successes clauses, hs)) s1 /\
    List.length paramTypes = List.length [yClause yType] /\
    FunctionType yType (NominalType "Int")
    = fold_right FunctionType
                 (resultType Sample.parseType NullType s1) paramTypes.
Proof.
  assert (H : Sample.parseFunctionSignature 30 [] NullType softClause
              = Ret (false, [yClause yType],
                     FunctionType yType (NominalType "Int"))
                    (after 14 softClause)) by (vm_compute; reflexivity).
  split; [exact H|].
  exact (parseFunctionSignature_clause_count Sample.parseType Sample.parseExpr
           Sample.getBoundName 30 [] NullType softClause H).
Defined.

(** C3 as stated fails at [(x = bad), y: Int)]: the first element's pattern
    is a soft failure, the loop falls through in front of the comma with the
    failure recorded, and the element list is as empty as before. *)
Lemma parsePatternTupleElt_drops_soft_pattern :
  Sample.parsePattern 10 softElement = Ret SemaError (after 5 softElement) /\
  parsePatternTupleElt Sample.parseExpr (Sample.parsePattern 10) [] false
                       softElement
  = Ret (Fallthrough ([], true)) (after 5 softElement) /\
  Tok_is (after 5 softElement) tok.comma = true /\
  ~ exists elt hs s2,
      parsePatternTupleElt Sample.parseExpr (Sample.parsePattern 10) [] false
                           softElement
      = Ret (Fallthrough ([] ++ [elt], hs)) s2.
Proof.
  split; [reflexivity|]. split; [reflexivity|]. split; [reflexivity|].
  intros (elt & hs & s2 & H). discriminate H.
Defined.

(** C3 (amended) at the same element, and at [x = bad, y)] where the default
    expression is the soft failure. *)
Lemma parsePatternTupleElt_soft_failure_witness :
  Sample.parsePattern 10 softElement = Ret SemaError (after 5 softElement) /\
  Tok_is (after 5 softElement) tok.equal = false /\
  parsePatternTupleElt Sample.parseExpr (Sample.parsePattern 10) [] false
                       softElement
  = Ret (Fallthrough ([], true)) (after 5 softElement) /\
  Sample.parsePattern 10 softDefault
  = Ret (Success (named 0 "x")) (after 1 softDefault) /\
  parsePatternTupleElt Sample.parseExpr (Sample.parsePattern 10) [] false
                       softDefault
  = Ret (Fallthrough ([mkTuplePatternElt (named 0 "x") None], true))
        (after 3 softDefault).
Proof.
  assert (H1 : Sample.parsePattern 10 softElement
               = Ret SemaError (after 5 softElement)) by reflexivity.
  assert (H2 : Sample.parsePattern 10 softDefault
               = Ret (Success (named 0 "x")) (after 1 softDefault))
    by reflexivity.
  split; [exact H1|]. split; [reflexivity|]. split; [|split; [exact H2|]].
  - apply (proj1 (proj2 (parsePatternTupleElt_soft_failure
                           Sample.parseType Sample.parseExpr
                           Sample.getBoundName 10 [] false softElement H1)));
      reflexivity.
  - apply (proj1 (parsePatternTupleElt_soft_failure
                    Sample.parseType Sample.parseExpr
                    Sample.getBoundName 10 [] false softDefault H2)
             (named 0 "x") (after 3 softDefault)); reflexivity.
Defined.

(** C4 and the ordered components of [(a: Int, b: String)]. *)
Lemma checkFullyTyped_Tuple_witness :
  Sample.checkFullyTyped noState abTuple
  = (false, setType abTuple abType, noState)
  /\
  exists fields',
    Forall2 (checkedField Sample.getBoundName noState)
            [mkTuplePatternElt (TypedPattern (named 1 "a") (NominalType "Int"))
                               None;
             mkTuplePatternElt
               (TypedPattern (named 5 "b") (NominalType "String")) None]
            fields' /\
    setType abTuple abType
    = TuplePattern 0 fields' 8
        (TupleType (map (fieldTypeElt Sample.getBoundName) fields')) /\
    noState = noState.
Proof.
  assert (H : Sample.checkFullyTyped noState abTuple
              = (false, setType abTuple abType, noState)) by reflexivity.
  split; [exact H|].
  exact (proj1 (checkFullyTyped_Tuple Sample.getBoundName noState 0 _ 8
                  NullType H) eq_refl).
Defined.

(** C5 at [(x: Int = bad)(y: Int) -> Int]. *)
Lemma parseFunctionSignature_type_witness :
  Sample.parseFunctionSignature 30 [] NullType softClause
  = Ret (false, [yClause yType], FunctionType yType (NominalType "Int"))
        (after 14 softClause) /\
  exists params1 hs s1,
    Sample.parseSignatureClauses 30 [] false softClause
    = Ret (Fallthrough (params1, hs)) s1 /\
    (Tok_is s1 tok.arrow = true ->
     Sample.parseType NullType (advance s1)
     = ((false, resultType Sample.parseType NullType s1),
        snd (Sample.parseType NullType (advance s1)))) /\
    (Tok_is s1 tok.arrow = false ->
     resultType Sample.parseType NullType s1 = TupleType []) /\
    (forall Q,
        FunctionType yType (NominalType "Int")
        = fold_right
            (fun param result =>
               FunctionType (clauseType Sample.getBoundName Q param) result)
            (resultType Sample.parseType NullType s1) params1) /\
    (forall Q param err param' Q',
        Sample.checkFullyTyped Q param = (err, param', Q') ->
        clauseType Sample.getBoundName Q param
        = if err then TupleType [] else getType param').
Proof.
  assert (H : Sample.parseFunctionSignature 30 [] NullType softClause
              = Ret (false, [yClause yType],
                     FunctionType yType (NominalType "Int"))
                    (after 14 softClause)) by (vm_compute; reflexivity).
  split; [exact H|].
  exact (parseFunctionSignature_type Sample.parseType Sample.parseExpr
           Sample.getBoundName 30 [] NullType softClause H).
Defined.

(** C6 at [(x: Int]: the element parses and the input ends. *)
Lemma parsePatternTuple_hard_failure_witness :
  isLParen unclosed = true /\
  Tok_is (advance unclosed) tok.r_paren = false /\
  LoopTurn Sample.parseType Sample.parseExpr Sample.getBoundName
           9 (advance unclosed) 9 [] false (advance unclosed) /\
  Sample.parsePattern 8 (advance unclosed)
  = Ret (Success (TypedPattern (named 1 "x") (NominalType "Int")))
        (after 4 unclosed) /\
  Sample.parsePatternTuple 10 unclosed
  = Ret ParseError
        (skipped tok.r_paren
           (diagnosed 4 diag.expected_rparen_tuple_pattern_list []
                      (after 4 unclosed))).
Proof.
  assert (H1 : isLParen unclosed = true) by reflexivity.
  assert (H2 : Tok_is (advance unclosed) tok.r_paren = false) by reflexivity.
  assert (H3 : LoopTurn Sample.parseType Sample.parseExpr Sample.getBoundName
                        9 (advance unclosed) 9 [] false (advance unclosed))
    by constructor.
  assert (H4 : Sample.parsePattern 8 (advance unclosed)
               = Ret (Success (TypedPattern (named 1 "x") (NominalType "Int")))
                     (after 4 unclosed)) by reflexivity.
  repeat (split; [assumption|]).
  apply (proj1 (proj2 (proj2 (parsePatternTuple_hard_failure H1 H2 H3 H4)))
           [mkTuplePatternElt (TypedPattern (named 1 "x") (NominalType "Int"))
                              None]
           false (after 4 unclosed)); reflexivity.
Defined.

(** C7 at [(a: Int, b: String)] once checked. *)
Lemma checkFullyTyped_idempotent_witness :
  Sample.checkFullyTyped noState abTuple
  = (false, setType abTuple abType, noState) /\
  forall Q,
    Sample.checkFullyTyped Q (setType abTuple abType)
    = (false, setType abTuple abType, Q).
Proof.
  assert (H : Sample.checkFullyTyped noState abTuple
              = (false, setType abTuple abType, noState)) by reflexivity.
  split; [exact H|].
  exact (@checkFullyTyped_idempotent Sample.getBoundName abTuple noState
           (setType abTuple abType) noState H).
Defined.

(** C8 as stated fails at [(x = bad): )]: the atom is a soft failure, a
    colon follows, and the result is a hard failure because the type does not
    parse. *)
Lemma parsePattern_soft_atom_hard_type :
  Sample.parsePatternAtom 10 softAtomBadType
  = Ret SemaError (after 5 softAtomBadType) /\
  Tok_is (after 5 softAtomBadType) tok.colon = true /\
  Sample.parsePattern 11 softAtomBadType
  = Ret ParseError (after 6 softAtomBadType) /\
  Sample.parsePattern 11 softAtomBadType
  <> Ret SemaError (after 6 softAtomBadType).
Proof.
  repeat (split; [reflexivity|]). discriminate.
Defined.

(** C8 (amended) at [(x = bad): Int]. *)
Lemma parsePattern_atom_failure_witness :
  Sample.parsePatternAtom 10 softAtomTyped
  = Ret SemaError (after 5 softAtomTyped) /\
  Tok_is (after 5 softAtomTyped) tok.colon = true /\
  Sample.parseType NullType (advance (after 5 softAtomTyped))
  = ((false, NominalType "Int"), after 7 softAtomTyped) /\
  Sample.parsePattern 11 softAtomTyped
  = Ret SemaError (after 7 softAtomTyped).
Proof.
  assert (H : Sample.parsePatternAtom 10 softAtomTyped
              = Ret SemaError (after 5 softAtomTyped)) by reflexivity.
  split; [exact H|]. split; [reflexivity|]. split; [reflexivity|].
  exact (proj1 (proj2 (parsePattern_atom_failure
                         Sample.parseType Sample.parseExpr Sample.getBoundName
                         10 softAtomTyped H))
           eq_refl eq_refl false (NominalType "Int") (after 7 softAtomTyped)
           eq_refl).
Defined.

(** C9 at [((_: Int))]. *)
Lemma checkFullyTyped_Paren_witness :
  Sample.checkFullyTyped noState
    (ParenPattern 1 (TypedPattern (AnyPattern 2 NullType) (NominalType "Int"))
                  5 NullType)
  = (false,
     ParenPattern 1 (TypedPattern (AnyPattern 2 NullType) (NominalType "Int"))
                  5 (NominalType "Int"),
     noState)
  /\
  exists node',
    Sample.checkFullyTyped noState nestedGroup = (false, node', noState) /\
    node' = ParenPattern 0
              (ParenPattern 1
                 (TypedPattern (AnyPattern 2 NullType) (NominalType "Int"))
                 5 (NominalType "Int"))
              6 (getType node') /\
    (false = true -> getType node' = NullType) /\
    (false = false ->
     getType node'
     = getType (ParenPattern 1
                  (TypedPattern (AnyPattern 2 NullType) (NominalType "Int"))
                  5 (NominalType "Int")) /\
     noState = noState).
Proof.
  assert (H : Sample.checkFullyTyped noState
                (ParenPattern 1
                   (TypedPattern (AnyPattern 2 NullType) (NominalType "Int"))
                   5 NullType)
              = (false,
                 ParenPattern 1
                   (TypedPattern (AnyPattern 2 NullType) (NominalType "Int"))
                   5 (NominalType "Int"),
                 noState)) by reflexivity.
  split; [exact H|].
  exact (checkFullyTyped_Paren Sample.getBoundName noState 0 _ 6 NullType H).
Defined.

(** C10 at [(x: Int) -> Int], and at [x: Int] where the assertion fires. *)
Lemma parseFunctionSignature_assertion_witness :
  isLParen intToInt = true /\
  Sample.parseFunctionSignature 30 [] NullType intToInt <> AssertFail /\
  isLParen (advance intToInt) = false /\
  Sample.parseFunctionSignature 30 [] NullType (advance intToInt) = AssertFail.
Proof.
  pose proof (parseFunctionSignature_assertion
                Sample.parseType Sample.parseExpr Sample.getBoundName)
    as (_ & Hfire & Hsafe).
  split; [reflexivity|]. split; [|split; [reflexivity|]].
  - apply Hsafe. reflexivity.
  - apply (Hfire 28). reflexivity.
Defined.

End Runs.

(** * Further properties *)

(** ** The checker: what it answers, reports and writes *)

Lemma fullyTyped_untypedLeaf pattern :
  fullyTyped pattern = true <-> untypedLeaf pattern = None.
Proof.
  induction pattern as [lp sub rp ty IH|lp elts rp ty IH|var ty|loc ty|sub ty _]
    using Pattern_nested_ind; simpl; try tauto; try (split; discriminate).
  induction IH as [|[sub init] rest Hsub _ IHrest]; simpl; [tauto|].
  simpl in Hsub. rewrite andb_true_iff.
  destruct (untypedLeaf sub) as [d|].
  - split; [|discriminate]. intros [H _]. apply Hsub in H. discriminate.
  - rewrite <- IHrest. split; [tauto|]. intros H. split; [|exact H].
    now apply Hsub.
Qed.

Section CheckerReport.

Variable getBoundName : Pattern -> Identifier.

Local Abbreviation check := (checkFullyTyped getBoundName).
Local Abbreviation checkAll :=
  (checkFields getBoundName (checkFullyTyped getBoundName)).

Lemma checkFields_report fields :
  Forall (fun elt => forall P,
              fst (fst (check P (getPattern elt)))
              = negb (fullyTyped (getPattern elt)) /\
              snd (check P (getPattern elt))
              = report (untypedLeaf (getPattern elt)) P) fields ->
  forall P acc,
    fst (fst (fst (checkAll P fields acc)))
    = negb (forallb (fun elt => match elt with
                                | mkTuplePatternElt sub _ => fullyTyped sub
                                end) fields) /\
    snd (checkAll P fields acc)
    = report (firstSome (fun elt => match elt with
                                    | mkTuplePatternElt sub _ =>
                                        untypedLeaf sub
                                    end) fields) P.
Proof.
  induction 1 as [|[sub init] rest Hsub _ IH]; intros P acc; simpl.
  - auto.
  - specialize (Hsub P). simpl in Hsub. destruct Hsub as [Hflag Hstate].
    destruct (check P sub) as [[err sub'] P1]. simpl in Hflag, Hstate.
    destruct err.
    + simpl. apply (f_equal negb) in Hflag. rewrite negb_involutive in Hflag.
      simpl in Hflag. rewrite <- Hflag. simpl.
      destruct (untypedLeaf sub) as [d|] eqn:U; [auto|].
      apply fullyTyped_untypedLeaf in U. congruence.
    + apply (f_equal negb) in Hflag. rewrite negb_involutive in Hflag.
      simpl in Hflag. rewrite <- Hflag. simpl.
      symmetry in Hflag. apply fullyTyped_untypedLeaf in Hflag.
      rewrite Hflag in Hstate |- *. simpl in Hstate. subst P1.
      specialize (IH P (acc ++ [mkTupleTypeElt (getType sub')
                                  (getBoundName sub') init])).
      destruct (checkAll P rest _) as [[[e r] t] P2]. simpl in *. exact IH.
Qed.

Lemma checkFullyTyped_report pattern :
  forall P,
    fst (fst (check P pattern)) = negb (fullyTyped pattern) /\
    snd (check P pattern) = report (untypedLeaf pattern) P.
Proof.
  induction pattern as [lp sub rp ty IH|lp elts rp ty IH|var ty|loc ty|sub ty _]
    using Pattern_nested_ind; intros P; simpl; auto.
  - specialize (IH P). destruct (check P sub) as [[err sub'] P1].
    simpl in IH. destruct err; exact IH.
  - pose proof (checkFields_report IH P []) as H.
    destruct (checkAll P elts []) as [[[err f] t] P1]. simpl in H.
    destruct err; exact H.
Qed.

(** X1: the check fails exactly on the patterns that are not fully typed,
    that is when some leaf is not under a type annotation; the parser state
    and the types already in the tree play no part. *)
Theorem checkFullyTyped_flag P pattern :
  fst (fst (checkFullyTyped getBoundName P pattern))
  = negb (fullyTyped pattern).
Proof. apply checkFullyTyped_report. Qed.

(** X2: a failing check emits exactly one diagnostic, "untyped pattern in
    function signature" for the first uncovered leaf in declaration order,
    however many leaves are uncovered; a successful check emits none.  The
    check changes nothing else of the parser. *)
Theorem checkFullyTyped_one_diagnostic P pattern :
  snd (checkFullyTyped getBoundName P pattern)
  = report (untypedLeaf pattern) P /\
  (fst (fst (checkFullyTyped getBoundName P pattern)) = true ->
   exists d,
     untypedLeaf pattern = Some d /\
     DiagID d = diag.untyped_pattern_in_function_signature /\
     Diags (snd (checkFullyTyped getBoundName P pattern)) = Diags P ++ [d]) /\
  (fst (fst (checkFullyTyped getBoundName P pattern)) = false ->
   snd (checkFullyTyped getBoundName P pattern) = P).
Proof.
  destruct (checkFullyTyped_report pattern P) as [Hflag Hstate].
  split; [exact Hstate|]. rewrite Hflag, Hstate. split.
  - intros H. destruct (untypedLeaf pattern) as [d|] eqn:U.
    + exists d. repeat split; auto.
      clear - U. revert d U.
      induction pattern as [lp sub rp ty IH|lp elts rp ty IH|var ty|loc ty
                           |sub ty _] using Pattern_nested_ind;
        simpl; intros d U; try (inversion U; reflexivity); auto.
      induction IH as [|[sub init] rest Hsub _ IHrest]; simpl in *;
        [discriminate|].
      destruct (untypedLeaf sub) as [d'|]; [inversion U; subst; auto|auto].
    + apply fullyTyped_untypedLeaf in U. rewrite U in H. discriminate.
  - intros H. apply negb_false_iff, fullyTyped_untypedLeaf in H.
    now rewrite H.
Qed.

Lemma checkFields_resetTypes fields :
  Forall (fun elt => forall P,
              resetTypes (snd (fst (check P (getPattern elt))))
              = resetTypes (getPattern elt)) fields ->
  forall P acc,
    map (fun elt => match elt with
                    | mkTuplePatternElt sub init =>
                        mkTuplePatternElt (resetTypes sub) init
                    end) (snd (fst (fst (checkAll P fields acc))))
    = map (fun elt => match elt with
                      | mkTuplePatternElt sub init =>
                          mkTuplePatternElt (resetTypes sub) init
                      end) fields.
Proof.
  induction 1 as [|[sub init] rest Hsub _ IH]; intros P acc; simpl.
  - reflexivity.
  - specialize (Hsub P). simpl in Hsub.
    destruct (check P sub) as [[err sub'] P1]. simpl in Hsub. destruct err.
    + simpl. now rewrite Hsub.
    + specialize (IH P1 (acc ++ [mkTupleTypeElt (getType sub')
                                   (getBoundName sub') init])).
      destruct (checkAll P1 rest _) as [[[e r] t] P2]. simpl in *.
      now rewrite Hsub, IH.
Qed.

(** X3: whether it succeeds or fails, the check writes nothing but type
    slots of [Paren] and [Tuple] nodes: locations, names, default
    expressions, element order, leaves and everything under a type
    annotation are as before. *)
Theorem checkFullyTyped_writes_types_only pattern :
  forall P,
    resetTypes (snd (fst (checkFullyTyped getBoundName P pattern)))
    = resetTypes pattern.
Proof.
  induction pattern as [lp sub rp ty IH|lp elts rp ty IH|var ty|loc ty|sub ty _]
    using Pattern_nested_ind; intros P; simpl; auto.
  - specialize (IH P). destruct (check P sub) as [[err sub'] P1].
    simpl in IH. destruct err; simpl; now rewrite IH.
  - pose proof (checkFields_resetTypes IH P []) as H.
    destruct (checkAll P elts []) as [[[err f] t] P1]. simpl in H.
    destruct err; simpl; now rewrite H.
Qed.

End CheckerReport.

(** ** The parser: what it builds and what it leaves of the state *)

Section ParserInvariants.

Variable parseType : Type_ -> ParserState -> (bool * Type_) * ParserState.
Variable parseExpr : diag.ID -> ParserState -> ParseResult Expr * ParserState.
Variable getBoundName : Pattern -> Identifier.

Local Abbreviation parsePattern :=
  (parsePattern parseType parseExpr getBoundName).
Local Abbreviation parsePatternAtom :=
  (parsePatternAtom parseType parseExpr getBoundName).
Local Abbreviation parsePatternTuple :=
  (parsePatternTuple parseType parseExpr getBoundName).
Local Abbreviation parsePatternTupleElts :=
  (parsePatternTupleElts parseType parseExpr getBoundName).
Local Abbreviation parsePatternTupleElt := (parsePatternTupleElt parseExpr).
Local Abbreviation makeTupleOrParen := (makeTupleOrParen getBoundName).
Local Abbreviation wrapsSingleAnonymous := (wrapsSingleAnonymous getBoundName).
Local Abbreviation parseSignatureClauses :=
  (parseSignatureClauses parseType parseExpr getBoundName).
Local Abbreviation parseFunctionSignature :=
  (parseFunctionSignature parseType parseExpr getBoundName).
Local Abbreviation buildFunctionType := (buildFunctionType getBoundName).
Local Abbreviation check := (checkFullyTyped getBoundName).
Local Abbreviation clauseResults :=
  (clauseResults parseType parseExpr getBoundName).

(** *** A proof rule for the four parsing functions

    [I] is a property of patterns that the constructions of the parser
    preserve, [R] a relation between states that its steps respect. *)

Section Rule.

Variable I : Pattern -> Prop.
Variable R : ParserState -> ParserState -> Prop.

Hypothesis I_Any : forall loc, I (AnyPattern loc NullType).
Hypothesis I_Named : forall loc name ctx,
    I (NamedPattern (mkVarDecl loc name NullType None ctx) NullType).
Hypothesis I_Typed : forall sub type, I sub -> I (TypedPattern sub type).
Hypothesis I_make : forall lp elts rp,
    Forall (fun elt => I (getPattern elt)) elts ->
    I (makeTupleOrParen lp elts rp).

Hypothesis R_refl : forall s, R s s.
Hypothesis R_trans : forall s1 s2 s3, R s1 s2 -> R s2 s3 -> R s1 s3.
Hypothesis R_advance : forall s, R s (advance s).
Hypothesis R_skipped : forall T s, R s (skipped T s).
Hypothesis R_diagnosed : forall loc id ranges s,
    R s (diagnosed loc id ranges s).
Hypothesis R_parseType : forall Result s, R s (snd (parseType Result s)).
Hypothesis R_parseExpr : forall ID s, R s (snd (parseExpr ID s)).

Let good (s : ParserState) (r : ParseResult Pattern) (s' : ParserState)
  : Prop :=
  R s s' /\ forall p, r = Success p -> I p.

Let goodElts (s : ParserState)
    (r : Flow (ParseResult Pattern) (list TuplePatternElt * bool))
    (s' : ParserState) : Prop :=
  R s s' /\
  (forall res, r = Returned res -> res = ParseError) /\
  forall elts hs, r = Fallthrough (elts, hs) ->
                  Forall (fun elt => I (getPattern elt)) elts.

Lemma parsePatternTupleElt_rule (m : M (ParseResult Pattern)) elts hs s :
  Forall (fun elt => I (getPattern elt)) elts ->
  wp True True m s (good s) ->
  wp True True (parsePatternTupleElt m elts hs) s (goodElts s).
Proof.
  intros Helts. unfold wp at 1. intros H. unfold wp.
  destruct (m s) as [pattern s1| |] eqn:E.
  - rewrite (parsePatternTupleElt_returns parseExpr _ elts hs _ E).
    destruct H as [HR HI].
    assert (Hex := R_parseExpr diag.expected_initializer_expr (advance s1)).
    assert (Hpush : forall init p, pattern = Success p ->
               Forall (fun elt => I (getPattern elt))
                      (elts ++ [mkTuplePatternElt p init])).
    { intros init p Hp. apply Forall_app. split; [exact Helts|].
      constructor; [|constructor]. simpl. now apply HI. }
    assert (Hfall : forall init hs' s2,
               R s s2 ->
               goodElts s
                 (Fallthrough
                    (match pattern with
                     | Success p => elts ++ [mkTuplePatternElt p init]
                     | _ => elts
                     end, hs')) s2).
    { intros init hs' s2 HR2. split; [exact HR2|]. split; [discriminate|].
      intros elts' h Hr. inversion Hr; subst.
      destruct pattern; eauto. }
    assert (Hret : forall s2, R s s2 -> goodElts s (Returned ParseError) s2).
    { intros s2 HR2. split; [exact HR2|]. split; [|discriminate].
      intros res Hr. now inversion Hr. }
    destruct pattern as [p| |].
    + cbv zeta. destruct (Tok_is s1 tok.equal).
      * destruct (parseExpr _ _) as [[e| |] s2]; simpl in Hex;
          [apply Hfall|apply Hret|apply Hfall]; eauto.
      * apply Hfall; auto.
    + apply Hret; eauto.
    + cbv zeta. destruct (Tok_is s1 tok.equal).
      * destruct (parseExpr _ _) as [[e| |] s2]; simpl in Hex;
          [apply (Hfall None)|apply Hret|apply (Hfall None)]; eauto.
      * apply (Hfall None); auto.
  - now rewrite (proj1 (parsePatternTupleElt_stuck parseExpr _ elts hs s) E).
  - now rewrite (proj2 (parsePatternTupleElt_stuck parseExpr _ elts hs s) E).
Qed.

Lemma parse_rule fuel :
  (forall s, wp True True (parsePattern fuel) s (good s)) /\
  (forall s, wp True True (parsePatternAtom fuel) s (good s)) /\
  (forall s, wp True True (parsePatternTuple fuel) s (good s)) /\
  (forall elts hs s,
      Forall (fun elt => I (getPattern elt)) elts ->
      wp True True (parsePatternTupleElts fuel elts hs) s (goodElts s)).
Proof.
  induction fuel as [|fuel (IHp & IHa & IHt & IHl)].
  { repeat split; intros; exact Logic.I. }
  repeat split.
  - intros s. rewrite parsePattern_S. apply wp_bind.
    eapply wp_conseq; [apply IHa|]. intros pattern s1 [HR HI].
    destruct (isParseError pattern) eqn:PE.
    { apply wp_ret. split; [auto|discriminate]. }
    apply wp_bind, wp_consumeIf; intros _.
    + apply wp_bind, wp_call.
      pose proof (R_parseType NullType (advance s1)) as Hty.
      destruct (parseType NullType (advance s1)) as [[[|] type] s2];
        simpl in *.
      * apply wp_ret. split; [eauto|discriminate].
      * destruct pattern as [p| |]; apply wp_ret; (split; [eauto|]);
          intros q Hq; inversion Hq; subst. auto.
    + apply wp_ret. split; auto.
  - intros s. rewrite parsePatternAtom_S. apply wp_bind, wp_get.
    destruct (Kind (Tok s)) eqn:K;
      try (apply wp_bind, wp_diagnose; apply wp_ret;
           split; [auto|discriminate]).
    + apply wp_bind, wp_consumeTokenK; [auto|]. intros T.
      destruct (String.eqb _ _); apply wp_ret; (split; [auto|]);
        intros q Hq; inversion Hq; subst; auto.
    + apply IHt.
    + apply IHt.
  - intros s. rewrite parsePatternTuple_S. apply wp_bind, wp_get.
    apply wp_bind, wp_assert; [auto|]. intros L.
    apply wp_bind, wp_consumeToken. apply wp_bind, wp_get.
    apply wp_bind. destruct (Tok_isNot (advance s) tok.r_paren) eqn:P.
    + eapply wp_conseq; [apply IHl; constructor|].
      intros r s1 (HR & Hres & HI).
      destruct r as [res|[elts hs]].
      * apply wp_ret. split; [eauto|]. intros q ->.
        specialize (Hres _ eq_refl). discriminate.
      * apply wp_bind, wp_consumeTokenK; [auto|]. intros _.
        destruct hs; apply wp_ret; (split; [eauto|]);
          intros q Hq; inversion Hq; subst. apply I_make. eauto.
    + apply wp_ret. apply wp_bind, wp_consumeTokenK; [auto|]. intros _.
      apply wp_ret; split; [eauto|]. intros q Hq; inversion Hq; subst.
      apply I_make. constructor.
  - intros elts hs s Helts. rewrite parsePatternTupleElts_S. apply wp_bind.
    eapply wp_conseq.
    { apply parsePatternTupleElt_rule; [exact Helts|apply IHp]. }
    intros r s1 (HR & Hres & HI). destruct r as [res|[elts' hs']].
    + apply wp_ret. split; [auto|]. split; [|discriminate].
      intros res' Hr. inversion Hr; subst. auto.
    + specialize (HI _ _ eq_refl).
      apply wp_bind, wp_consumeIf; intros _.
      * eapply wp_conseq; [apply IHl, HI|]. intros r s2 (HR2 & Hres2 & HI2).
        split; [eauto|]. split; auto.
      * apply wp_bind, wp_get. destruct (Tok_isNot s1 tok.r_paren).
        -- apply wp_bind, wp_diagnose. apply wp_bind, wp_skipUntil.
           apply wp_ret. split; [eauto|]. split; [|discriminate].
           intros res Hr. now inversion Hr.
        -- apply wp_ret. split; [auto|]. split; [discriminate|].
           intros e h Hr. inversion Hr; subst. exact HI.
Qed.

End Rule.

(** *** Trees as the parser builds them *)

Lemma forallb_fields (f : Pattern -> bool) elts :
  Forall (fun elt => f (getPattern elt) = true) elts ->
  forallb (fun elt => match elt with
                      | mkTuplePatternElt sub _ => f sub
                      end) elts = true.
Proof.
  induction 1 as [|[sub init] rest H _ IH]; simpl; [reflexivity|].
  simpl in H. now rewrite H, IH.
Qed.

Lemma unchecked_make lp elts rp :
  Forall (fun elt => unchecked (getPattern elt) = true) elts ->
  unchecked (makeTupleOrParen lp elts rp) = true.
Proof.
  intros H. unfold makeTupleOrParen.
  destruct (wrapsSingleAnonymous elts) eqn:W.
  - apply wrapsSingleAnonymous_true in W. destruct W as (elt & -> & _).
    simpl. now inversion H.
  - simpl. now apply forallb_fields.
Qed.

Lemma demoted_make lp elts rp :
  Forall (fun elt => demoted getBoundName (getPattern elt) = true) elts ->
  demoted getBoundName (makeTupleOrParen lp elts rp) = true.
Proof.
  intros H. unfold makeTupleOrParen.
  destruct (wrapsSingleAnonymous elts) eqn:W.
  - apply wrapsSingleAnonymous_true in W.
    destruct W as (elt & -> & _ & N). simpl. rewrite N. simpl.
    now inversion H.
  - simpl. rewrite W. simpl. now apply forallb_fields.
Qed.

(** Discharges the premises of [parse_rule] one after the other. *)
Ltac discharge_rule H :=
  repeat match type of H with
         | ?A -> _ =>
             let a := fresh in
             assert (a : A);
             [ clear H; simpl; intros;
               auto using unchecked_make, demoted_make
             | specialize (H a); clear a ]
         end.

(** X4: every pattern the parser returns is unchecked: no node carries a
    type except the annotation of a [Typed] node, and no variable carries a
    type or an initializer.  Types get into the tree only by
    [checkFullyTyped]. *)
Theorem parse_results_unchecked fuel s p s' :
  parsePattern fuel s = Ret (Success p) s' \/
  parsePatternAtom fuel s = Ret (Success p) s' \/
  parsePatternTuple fuel s = Ret (Success p) s' ->
  unchecked p = true.
Proof.
  pose proof (@parse_rule (fun q => unchecked q = true) (fun _ _ => True))
    as H.
  discharge_rule H. destruct (H fuel) as (Hp & Ha & Ht & _).
  specialize (Hp s). specialize (Ha s). specialize (Ht s).
  unfold wp in Hp, Ha, Ht.
  intros [E|[E|E]]; rewrite E in *; intuition.
Qed.

(** X5: the rule that tells grouping parentheses from a tuple holds at every
    node of every pattern the parser returns, not only at its root: each
    [Paren] wraps a pattern without bound name, and no [Tuple] consists of a
    single element without default expression and without bound name. *)
Theorem parse_results_demoted fuel s p s' :
  parsePattern fuel s = Ret (Success p) s' \/
  parsePatternAtom fuel s = Ret (Success p) s' \/
  parsePatternTuple fuel s = Ret (Success p) s' ->
  demoted getBoundName p = true.
Proof.
  pose proof (@parse_rule (fun q => demoted getBoundName q = true)
                          (fun _ _ => True)) as H.
  discharge_rule H. destruct (H fuel) as (Hp & Ha & Ht & _).
  specialize (Hp s). specialize (Ha s). specialize (Ht s).
  unfold wp in Hp, Ha, Ht.
  intros [E|[E|E]]; rewrite E in *; intuition.
Qed.

(** *** The parser state only moves forwards *)

Lemma extends_refl s : extends s s.
Proof.
  repeat split; auto; [exists []|exists []]; simpl; auto.
  now rewrite app_nil_r.
Qed.

Lemma extends_trans s1 s2 s3 : extends s1 s2 -> extends s2 s3 -> extends s1 s3.
Proof.
  intros ([c1 H1] & [d1 G1] & E1 & C1) ([c2 H2] & [d2 G2] & E2 & C2).
  repeat split; try congruence.
  - exists (c1 ++ c2). rewrite H1, H2. now rewrite app_assoc.
  - exists (d1 ++ d2). rewrite G2, G1. now rewrite app_assoc.
Qed.

Lemma extends_advance s : extends s (advance s).
Proof.
  repeat split; simpl; auto.
  - destruct (Tokens s) as [|t rest]; [exists []|exists [t]]; reflexivity.
  - exists []. now rewrite app_nil_r.
Qed.

Lemma skipTokens_suffix T toks :
  exists consumed, toks = consumed ++ skipTokens T toks.
Proof.
  induction toks as [|t rest [c IH]]; simpl.
  - exists []. reflexivity.
  - destruct (tok.eqb (Kind t) T).
    + exists [t]. reflexivity.
    + exists (t :: c). simpl. now rewrite <- IH.
Qed.

Lemma extends_skipped T s : extends s (skipped T s).
Proof.
  repeat split; simpl; auto.
  - apply skipTokens_suffix.
  - exists []. now rewrite app_nil_r.
Qed.

Lemma extends_emitted ds s : extends s (emitted ds s).
Proof.
  repeat split; simpl; auto; [exists []|exists ds]; reflexivity.
Qed.

Lemma extends_diagnosed loc id ranges s :
  extends s (diagnosed loc id ranges s).
Proof. apply (extends_emitted [mkDiagnostic loc id ranges]). Qed.

Lemma extends_report d s : extends s (report d s).
Proof.
  destruct d; [apply extends_emitted|apply extends_refl].
Qed.

Lemma emitted_app ds1 ds2 s :
  emitted (ds1 ++ ds2) s = emitted ds2 (emitted ds1 s).
Proof. unfold emitted; simpl. now rewrite app_assoc. Qed.

Lemma emitted_nil s : emitted [] s = s.
Proof. unfold emitted. rewrite app_nil_r. now destruct s. Qed.

Lemma report_emitted d s :
  report d s = emitted (match d with Some d => [d] | None => [] end) s.
Proof. destruct d; simpl; [reflexivity|]. symmetry. apply emitted_nil. Qed.

(** The fold: which patterns it leaves and what it reports. *)
Lemma buildFunctionType_params Q params :
  forall P type,
    fst (fst (buildFunctionType P params type))
    = map (fun param => snd (fst (check Q param))) params.
Proof.
  induction params as [|param later IH]; intros P type; simpl;
    [reflexivity|].
  specialize (IH P type).
  destruct (buildFunctionType P later type) as [[later' type1] P1].
  pose proof (checkFullyTyped_state_indep getBoundName param P1 Q) as Hi.
  destruct (check P1 param) as [[err param'] P2]. simpl in *.
  rewrite <- IH, <- Hi. reflexivity.
Qed.

Lemma buildFunctionType_state params :
  forall P type,
    snd (buildFunctionType P params type)
    = emitted (foldDiagnostics params) P.
Proof.
  induction params as [|param later IH]; intros P type; simpl.
  - symmetry. apply emitted_nil.
  - specialize (IH P type).
    destruct (buildFunctionType P later type) as [[later' type1] P1].
    pose proof (checkFullyTyped_report getBoundName param P1) as [_ Hs].
    destruct (check P1 param) as [[err param'] P2]. simpl in *.
    subst P1 P2. unfold foldDiagnostics. simpl.
    rewrite flat_map_app, emitted_app. simpl. rewrite app_nil_r.
    apply report_emitted.
Qed.

Lemma foldDiagnostics_length params :
  List.length (foldDiagnostics params)
  = List.length (filter (fun param => negb (fullyTyped param)) params).
Proof.
  unfold foldDiagnostics.
  induction params as [|param later IH]; simpl; [reflexivity|].
  rewrite flat_map_app, length_app, IH. simpl. rewrite app_nil_r.
  destruct (untypedLeaf param) as [d|] eqn:U.
  - destruct (fullyTyped param) eqn:F.
    + apply fullyTyped_untypedLeaf in F. congruence.
    + simpl. lia.
  - apply fullyTyped_untypedLeaf in U. rewrite U. simpl. lia.
Qed.

(** The clause loop when a clause is a hard failure. *)
Lemma parseSignatureClauses_hard fuel :
  forall params hs s b params' s',
    parseSignatureClauses fuel params hs s = Ret (Returned (b, params')) s' ->
    b = true /\
    In ParseError (clauseResults fuel s) /\
    params' = params ++ successes (clauseResults fuel s).
Proof.
  induction fuel as [|fuel IH]; intros params hs s b params' s' E;
    [discriminate|].
  rewrite parseSignatureClauses_S in E.
  unfold parseSignatureClause, bind at 1, bind at 1 in E. simpl.
  destruct (parsePatternTuple fuel s) as [[p| |] s1| |]; try discriminate.
  - unfold ret, bind, get in E.
    destruct (Tok_is s1 tok.l_paren || Tok_is s1 tok.l_paren_space);
      [|discriminate].
    apply IH in E. destruct E as (-> & HIn & ->). simpl.
    rewrite <- app_assoc. auto.
  - unfold ret in E. inversion E; subst. simpl. rewrite app_nil_r. auto.
  - unfold ret, bind, get in E.
    destruct (Tok_is s1 tok.l_paren || Tok_is s1 tok.l_paren_space);
      [|discriminate].
    apply IH in E. destruct E as (-> & HIn & ->). simpl. auto.
Qed.

(** X6: [parseFunctionSignature] answers [true] exactly when a clause is a
    hard failure or the type after the arrow does not parse.  A clause that
    is a soft failure never makes it answer [true]: the flag it sets is not
    read.  When the answer is [true], [params] holds the caller's patterns
    followed by the clause patterns parsed so far, none of them checked. *)
Theorem parseFunctionSignature_flag fuel params type s b params' type' s' :
  parseFunctionSignature fuel params type s = Ret (b, params', type') s' ->
  (b = true <->
   In ParseError (clauseResults fuel s) \/
   exists hs s1,
     parseSignatureClauses fuel params false s
     = Ret (Fallthrough (params ++ successes (clauseResults fuel s), hs)) s1 /\
     Tok_is s1 tok.arrow = true /\
     fst (fst (parseType type (advance s1))) = true) /\
  (b = true -> params' = params ++ successes (clauseResults fuel s)).
Proof.
  unfold parseFunctionSignature. unfold bind at 1.
  destruct (parseSignatureClauses fuel params false s)
    as [[[b0 ps]|[params1 hs]] s1| |] eqn:C; try discriminate.
  - unfold ret. intros E. inversion E; subst.
    apply parseSignatureClauses_hard in C. destruct C as (-> & HIn & ->).
    split; [split|]; auto.
  - pose proof (parseSignatureClauses_params _ _ _ _ _ _ _ C) as (-> & HF & _).
    assert (HnotIn : ~ In ParseError (clauseResults fuel s)).
    { intros HIn. rewrite Forall_forall in HF. now apply (HF _ HIn). }
    unfold bind at 1. rewrite consumeIf_eq.
    destruct (Tok_is s1 tok.arrow) eqn:A.
    + unfold bind, call.
      destruct (parseType type (advance s1)) as [[[|] ty] s2] eqn:T; simpl.
      * unfold ret. intros E. inversion E; subst.
        split; [split; auto|auto]. intros _. right. exists hs, s1.
        rewrite T. auto.
      * destruct (buildFunctionType s2 _ ty) as [[ps' ty'] s3].
        intros E. inversion E; subst.
        split; [split|]; try discriminate.
        intros [H|(hs' & s1' & C' & A' & T')]; [contradiction|].
        inversion C'; subst. rewrite T in T'. discriminate.
    + unfold bind, ret.
      destruct (buildFunctionType s1 _ TupleType_getEmpty)
        as [[ps' ty'] s3].
      intros E. inversion E; subst.
      split; [split|]; try discriminate.
      intros [H|(hs' & s1' & C' & A' & T')]; [contradiction|].
      inversion C'; subst. congruence.
Qed.

(** X7: when [parseFunctionSignature] answers [false], [params] holds the
    caller's patterns followed by the patterns of the clauses that parsed
    with success, in order, each as [checkFullyTyped] leaves it; a clause
    whose check failed stays in the list. *)
Theorem parseFunctionSignature_params fuel params type s params' type' s' :
  parseFunctionSignature fuel params type s = Ret (false, params', type') s' ->
  forall Q,
    params'
    = map (fun param => snd (fst (checkFullyTyped getBoundName Q param)))
          (params ++ successes (clauseResults fuel s)).
Proof.
  intros E Q. apply parseFunctionSignature_success in E.
  destruct E as (params1 & hs & s1 & s2 & C & _ & _ & B).
  pose proof (parseSignatureClauses_params _ _ _ _ _ _ _ C) as (-> & _ & _).
  rewrite <- (buildFunctionType_params Q _ s2
                (resultType parseType type s1)).
  now rewrite B.
Qed.

(** X8: the fold of a successful signature parse emits exactly one
    diagnostic for each clause pattern that is not fully typed, the last
    clause first, and touches nothing else: the state at the return is the
    state after the result type with those diagnostics added. *)
Theorem parseFunctionSignature_diagnostics fuel params type s
        params' type' s' :
  parseFunctionSignature fuel params type s = Ret (false, params', type') s' ->
  exists hs s1,
    parseSignatureClauses fuel params false s
    = Ret (Fallthrough (params ++ successes (clauseResults fuel s), hs)) s1 /\
    s' = emitted (foldDiagnostics (params ++ successes (clauseResults fuel s)))
                 (if Tok_is s1 tok.arrow
                  then snd (parseType type (advance s1)) else s1) /\
    List.length (foldDiagnostics (params ++ successes (clauseResults fuel s)))
    = List.length (filter (fun param => negb (fullyTyped param))
                          (params ++ successes (clauseResults fuel s))).
Proof.
  intros E. apply parseFunctionSignature_success in E.
  destruct E as (params1 & hs & s1 & s2 & C & HA & HN & B).
  pose proof (parseSignatureClauses_params _ _ _ _ _ _ _ C) as (-> & _ & _).
  exists hs, s1. split; [exact C|]. split; [|apply foldDiagnostics_length].
  pose proof (buildFunctionType_state (params ++ successes (clauseResults fuel s))
                s2 (resultType parseType type s1)) as Hs.
  rewrite B in Hs. simpl in Hs. subst s'.
  destruct (Tok_is s1 tok.arrow).
  - destruct (HA eq_refl) as [_ ->]. reflexivity.
  - now rewrite (HN eq_refl).
Qed.


Section Frame.

(** The external parsers consume tokens from the front and add diagnostics
    at the end. *)
Hypothesis parseType_extends :
  forall Result s, extends s (snd (parseType Result s)).
Hypothesis parseExpr_extends :
  forall ID s, extends s (snd (parseExpr ID s)).

Lemma parse_extends fuel :
  (forall s, wp True True (parsePattern fuel) s (fun _ s' => extends s s')) /\
  (forall s, wp True True (parsePatternTuple fuel) s
                (fun _ s' => extends s s')).
Proof.
  pose proof (@parse_rule (fun _ => True) extends) as H.
  repeat match type of H with
         | ?A -> _ =>
             let a := fresh in
             assert (a : A);
             [ clear H; intros;
               eauto using extends_refl, extends_trans, extends_advance,
                 extends_skipped, extends_diagnosed
             | specialize (H a); clear a ]
         end.
  destruct (H fuel) as (Hp & _ & Ht & _).
  split; intros s; [specialize (Hp s)|specialize (Ht s)];
    eapply wp_conseq; eauto; simpl; intros; tauto.
Qed.

Lemma parseSignatureClauses_extends fuel :
  forall params hs s,
    wp True True (parseSignatureClauses fuel params hs) s
       (fun _ s' => extends s s').
Proof.
  induction fuel as [|fuel IH]; intros params hs s; [exact Logic.I|].
  rewrite parseSignatureClauses_S. apply wp_bind.
  unfold parseSignatureClause. apply wp_bind.
  eapply wp_conseq; [apply parse_extends|]. intros pattern s1 HE.
  simpl in HE.
  assert (Hnext : forall ps b,
             wp True True
                (s <- get ;;
                 if Tok_is s tok.l_paren || Tok_is s tok.l_paren_space
                 then parseSignatureClauses fuel ps b
                 else ret (Fallthrough (ps, b))) s1
                (fun _ s' => extends s s')).
  { intros ps b. apply wp_bind, wp_get.
    destruct (Tok_is s1 tok.l_paren || Tok_is s1 tok.l_paren_space).
    - eapply wp_conseq; [apply IH|]. simpl. intros a s2 H2.
      exact (extends_trans HE H2).
    - apply wp_ret. exact HE. }
  destruct pattern as [p| |]; apply wp_ret.
  - apply Hnext.
  - apply wp_ret. exact HE.
  - apply Hnext.
Qed.

(** X9: parsing only moves forwards.  Whatever [parsePattern],
    [parsePatternTuple] and [parseFunctionSignature] return, and skipping
    for recovery included, the tokens left are a suffix of the tokens there
    were, the diagnostics there were are a prefix of the diagnostics left,
    and the declaration context is the same. *)
Theorem parser_extends_state :
  (forall fuel s r s', parsePattern fuel s = Ret r s' -> extends s s') /\
  (forall fuel s r s', parsePatternTuple fuel s = Ret r s' -> extends s s') /\
  (forall fuel params type s r s',
      parseFunctionSignature fuel params type s = Ret r s' -> extends s s').
Proof.
  split; [|split].
  - intros fuel s r s' E.
    pose proof (proj1 (parse_extends fuel) s) as H. unfold wp in H.
    now rewrite E in H.
  - intros fuel s r s' E.
    pose proof (proj2 (parse_extends fuel) s) as H. unfold wp in H.
    now rewrite E in H.
  - intros fuel params type s r s' E.
    assert (H : wp True True (parseFunctionSignature fuel params type) s
                   (fun _ s' => extends s s')).
    { unfold parseFunctionSignature. apply wp_bind.
      eapply wp_conseq; [apply parseSignatureClauses_extends|].
      intros r0 s1 HE. destruct r0 as [[b ps]|[ps hs]]; [exact HE|].
      assert (Hfold : forall ty s2,
                 extends s s2 ->
                 wp True True
                    (fun s0 =>
                       let '(params0, type0, s3) :=
                         buildFunctionType s0 ps ty in
                       Ret (false, params0, type0) s3) s2
                    (fun _ s' => extends s s')).
      { intros ty s2 HE2. unfold wp.
        pose proof (buildFunctionType_state ps s2 ty) as Hs.
        destruct (buildFunctionType s2 ps ty) as [[ps' ty'] s3].
        simpl in Hs. subst s3.
        eapply extends_trans; [exact HE2|apply extends_emitted]. }
      apply wp_bind, wp_consumeIf; intros _.
      - apply wp_bind, wp_bind, wp_call.
        pose proof (parseType_extends type (advance s1)) as Hty.
        assert (HE2 : extends s (snd (parseType type (advance s1)))).
        { eapply extends_trans; [exact HE|].
          eapply extends_trans; [apply extends_advance|exact Hty]. }
        destruct (parseType type (advance s1)) as [[[|] ty] s2]; simpl in *.
        + exact HE2.
        + apply (Hfold ty s2 HE2).
      - apply (Hfold TupleType_getEmpty s1 HE). }
    unfold wp in H. now rewrite E in H.
Qed.

End Frame.

Section Progress.

Hypothesis parseType_consumes :
  forall Result s, remaining (snd (parseType Result s)) <= remaining s.
Hypothesis parseExpr_consumes :
  forall ID s, remaining (snd (parseExpr ID s)) <= remaining s.

(** X10: a pattern or tuple parse that is not a hard failure has consumed
    at least one token, and a hard failure has given none back.  This is
    what makes the element loop and the clause loop end. *)
Theorem parse_progress fuel s r s' :
  parsePattern fuel s = Ret r s' \/ parsePatternTuple fuel s = Ret r s' ->
  remaining s' <= remaining s /\
  (r <> ParseError -> remaining s' < remaining s).
Proof.
  pose proof (@parse_consumes parseType parseExpr getBoundName
                              parseType_consumes parseExpr_consumes True fuel)
    as (Hp & _ & Ht & _).
  specialize (Hp s (or_introl Logic.I)).
  specialize (Ht s (or_introl Logic.I)). unfold wp in Hp, Ht.
  intros [E|E]; rewrite E in *; assumption.
Qed.

End Progress.

(** *** Edge cases *)

(** X11: the empty tuple.  An opening parenthesis directly followed by a
    closing one parses, with any fuel, to a [Tuple] without elements, never
    to a [Paren]; the two tokens are consumed and nothing is diagnosed. *)
Theorem parsePatternTuple_empty fuel s :
  isLParen s = true ->
  Tok_is (advance s) tok.r_paren = true ->
  parsePatternTuple (S fuel) s
  = Ret (Success (TuplePattern (Loc (Tok s)) [] (Loc (Tok (advance s)))
                               NullType))
        (advance (advance s)).
Proof.
  intros L P. rewrite parsePatternTuple_S.
  unfold bind at 1, get, bind at 1, assert. unfold isLParen in L. rewrite L.
  unfold bind at 1, consumeToken, bind at 1, bind at 1, Tok_isNot.
  rewrite P. cbn [negb]. unfold ret, bind, consumeTokenK, bind, get, assert.
  rewrite P. reflexivity.
Qed.

(** X12: where no pattern can start.  At a token that is neither an
    identifier nor an opening parenthesis, the end of the input included,
    [parsePattern] is a hard failure that consumes nothing, not even a
    following colon and type, and emits the one diagnostic "expected a
    pattern" at that token. *)
Theorem parsePattern_expected_pattern fuel s :
  Tok_is s tok.identifier = false ->
  isLParen s = false ->
  parsePattern (S (S fuel)) s
  = Ret ParseError (diagnosed (Loc (Tok s)) diag.expected_pattern [] s).
Proof.
  unfold isLParen, Tok_is. intros HI HL.
  apply orb_false_iff in HL. destruct HL as [HL1 HL2].
  rewrite parsePattern_S, parsePatternAtom_S. unfold bind at 1, bind at 1, get.
  destruct (Kind (Tok s)); try discriminate; reflexivity.
Qed.

End ParserInvariants.

(** ** The further properties at concrete inputs *)

Section MoreRuns.

Import Sample.

Local Abbreviation noState := (mkParserState [] 0 [] 0).

Lemma Sample_parseType_consumes Result s :
  remaining (snd (Sample.parseType Result s)) <= remaining s.
Proof.
  unfold Sample.parseType.
  destruct (Kind (Tok s)); simpl; auto using remaining_advance.
Qed.

Lemma Sample_parseExpr_consumes ID s :
  remaining (snd (Sample.parseExpr ID s)) <= remaining s.
Proof.
  unfold Sample.parseExpr.
  destruct (Kind (Tok s)); simpl; auto using remaining_advance.
Qed.

Lemma Sample_parseType_extends Result s :
  extends s (snd (Sample.parseType Result s)).
Proof.
  unfold Sample.parseType.
  destruct (Kind (Tok s)); simpl; auto using extends_refl, extends_advance.
Qed.

Lemma Sample_parseExpr_extends ID s :
  extends s (snd (Sample.parseExpr ID s)).
Proof.
  unfold Sample.parseExpr.
  destruct (Kind (Tok s)); simpl;
    auto using extends_advance, extends_diagnosed.
Qed.

(** X2 at [(x, y)]: two uncovered leaves, one diagnostic, for [x]. *)
Lemma checkFullyTyped_one_diagnostic_witness :
  fst (fst (Sample.checkFullyTyped noState xyTuple)) = true /\
  exists d,
    untypedLeaf xyTuple = Some d /\
    DiagID d = diag.untyped_pattern_in_function_signature /\
    Diags (snd (Sample.checkFullyTyped noState xyTuple))
    = Diags noState ++ [d].
Proof.
  split; [reflexivity|].
  apply (proj1 (proj2 (checkFullyTyped_one_diagnostic
                         Sample.getBoundName noState xyTuple))).
  reflexivity.
Defined.

(** X4 at [(a: Int, b: String)]. *)
Lemma parse_results_unchecked_witness :
  Sample.parsePatternTuple 20 abSource
  = Ret (Success abTuple) (after 9 abSource) /\
  unchecked abTuple = true.
Proof.
  assert (H : Sample.parsePatternTuple 20 abSource
              = Ret (Success abTuple) (after 9 abSource)) by reflexivity.
  split; [exact H|].
  exact (parse_results_unchecked Sample.parseType Sample.parseExpr
           Sample.getBoundName 20 abSource
           (or_intror (or_intror H))).
Defined.

(** X5 at [((_: Int))]. *)
Lemma parse_results_demoted_witness :
  Sample.parsePatternTuple 20 nestedSource
  = Ret (Success nestedGroup) (after 7 nestedSource) /\
  demoted Sample.getBoundName nestedGroup = true.
Proof.
  assert (H : Sample.parsePatternTuple 20 nestedSource
              = Ret (Success nestedGroup) (after 7 nestedSource))
    by reflexivity.
  split; [exact H|].
  exact (parse_results_demoted Sample.parseType Sample.parseExpr
           Sample.getBoundName 20 nestedSource
           (or_intror (or_intror H))).
Defined.

(** X6 at [(x: Int]: a hard failure of the only clause. *)
Lemma parseFunctionSignature_flag_witness :
  Sample.parseFunctionSignature 30 [] NullType unclosed
  = Ret (true, [], NullType)
        (mkParserState [] 4
           [mkDiagnostic 4 diag.expected_rparen_tuple_pattern_list []] 0) /\
  (true = true <->
   In ParseError (Sample.clauseResults 30 unclosed) \/
   exists hs s1,
     Sample.parseSignatureClauses 30 [] false unclosed
     = Ret (Fallthrough
              ([] ++ successes (Sample.clauseResults 30 unclosed), hs)) s1 /\
     Tok_is s1 tok.arrow = true /\
     fst (fst (Sample.parseType NullType (advance s1))) = true) /\
  (true = true ->
   [] = [] ++ successes (Sample.clauseResults 30 unclosed)).
Proof.
  assert (H : Sample.parseFunctionSignature 30 [] NullType unclosed
              = Ret (true, [], NullType)
                    (mkParserState [] 4
                       [mkDiagnostic 4
                          diag.expected_rparen_tuple_pattern_list []] 0))
    by (vm_compute; reflexivity).
  split; [exact H|].
  exact (parseFunctionSignature_flag Sample.parseType Sample.parseExpr
           Sample.getBoundName 30 [] NullType unclosed H).
Defined.

(** X7 at [(x: Int = bad)(y: Int) -> Int]. *)
Lemma parseFunctionSignature_params_witness :
  Sample.parseFunctionSignature 30 [] NullType softClause
  = Ret (false, [yClause yType], FunctionType yType (NominalType "Int"))
        (after 14 softClause) /\
  forall Q,
    [yClause yType]
    = map (fun param => snd (fst (Sample.checkFullyTyped Q param)))
          ([] ++ successes (Sample.clauseResults 30 softClause)).
Proof.
  assert (H : Sample.parseFunctionSignature 30 [] NullType softClause
              = Ret (false, [yClause yType],
                     FunctionType yType (NominalType "Int"))
                    (after 14 softClause)) by (vm_compute; reflexivity).
  split; [exact H|].
  exact (parseFunctionSignature_params Sample.parseType Sample.parseExpr
           Sample.getBoundName 30 [] NullType softClause H).
Defined.

(** X8 at [(x)(y: Int) -> Int]: one diagnostic, for the clause [(x)]. *)
Lemma parseFunctionSignature_diagnostics_witness :
  Sample.parseFunctionSignature 30 [] NullType untypedClause
  = Ret (false, untypedClauseParams,
         FunctionType (TupleType [])
                      (FunctionType yType (NominalType "Int")))
        (emitted [untypedX] (after 10 untypedClause)) /\
  exists hs s1,
    Sample.parseSignatureClauses 30 [] false untypedClause
    = Ret (Fallthrough
             ([] ++ successes (Sample.clauseResults 30 untypedClause), hs))
          s1 /\
    emitted [untypedX] (after 10 untypedClause)
    = emitted (foldDiagnostics
                 ([] ++ successes (Sample.clauseResults 30 untypedClause)))
              (if Tok_is s1 tok.arrow
               then snd (Sample.parseType NullType (advance s1)) else s1) /\
    List.length (foldDiagnostics
                   ([] ++ successes (Sample.clauseResults 30 untypedClause)))
    = List.length (filter (fun param => negb (fullyTyped param))
                     ([] ++ successes
                              (Sample.clauseResults 30 untypedClause))).
Proof.
  assert (H : Sample.parseFunctionSignature 30 [] NullType untypedClause
              = Ret (false, untypedClauseParams,
                     FunctionType (TupleType [])
                       (FunctionType yType (NominalType "Int")))
                    (emitted [untypedX] (after 10 untypedClause)))
    by (vm_compute; reflexivity).
  split; [exact H|].
  exact (parseFunctionSignature_diagnostics Sample.parseType Sample.parseExpr
           Sample.getBoundName 30 [] NullType untypedClause H).
Defined.

(** X9 at [(x: Int], recovery included. *)
Lemma parser_extends_state_witness :
  (forall Result s, extends s (snd (Sample.parseType Result s))) /\
  (forall ID s, extends s (snd (Sample.parseExpr ID s))) /\
  Sample.parseFunctionSignature 30 [] NullType unclosed
  = Ret (true, [], NullType)
        (mkParserState [] 4
           [mkDiagnostic 4 diag.expected_rparen_tuple_pattern_list []] 0) /\
  extends unclosed
          (mkParserState [] 4
             [mkDiagnostic 4 diag.expected_rparen_tuple_pattern_list []] 0).
Proof.
  assert (H : Sample.parseFunctionSignature 30 [] NullType unclosed
              = Ret (true, [], NullType)
                    (mkParserState [] 4
                       [mkDiagnostic 4
                          diag.expected_rparen_tuple_pattern_list []] 0))
    by (vm_compute; reflexivity).
  split; [exact Sample_parseType_extends|].
  split; [exact Sample_parseExpr_extends|]. split; [exact H|].
  exact (proj2 (proj2 (@parser_extends_state
                         Sample.parseType Sample.parseExpr Sample.getBoundName
                         Sample_parseType_extends Sample_parseExpr_extends))
           30 [] NullType unclosed _ _ H).
Defined.

(** X10 at [(_)]. *)
Lemma parse_progress_witness :
  (forall Result s,
      remaining (snd (Sample.parseType Result s)) <= remaining s) /\
  (forall ID s, remaining (snd (Sample.parseExpr ID s)) <= remaining s) /\
  Sample.parsePatternTuple 10 grouping
  = Ret (Success (ParenPattern 0 (AnyPattern 1 NullType) 2 NullType))
        (after 3 grouping) /\
  remaining (after 3 grouping) <= remaining grouping /\
  (Success (ParenPattern 0 (AnyPattern 1 NullType) 2 NullType) <> ParseError ->
   remaining (after 3 grouping) < remaining grouping).
Proof.
  assert (H : Sample.parsePatternTuple 10 grouping
              = Ret (Success (ParenPattern 0 (AnyPattern 1 NullType) 2
                                           NullType))
                    (after 3 grouping)) by reflexivity.
  split; [exact Sample_parseType_consumes|].
  split; [exact Sample_parseExpr_consumes|]. split; [exact H|].
  exact (@parse_progress Sample.parseType Sample.parseExpr Sample.getBoundName
           Sample_parseType_consumes Sample_parseExpr_consumes
           10 grouping _ _ (or_intror H)).
Defined.

(** X11 at [()]. *)
Lemma parsePatternTuple_empty_witness :
  isLParen emptyTuple = true /\
  Tok_is (advance emptyTuple) tok.r_paren = true /\
  Sample.parsePatternTuple 1 emptyTuple
  = Ret (Success (TuplePattern 0 [] 1 NullType)) (after 2 emptyTuple).
Proof.
  split; [reflexivity|]. split; [reflexivity|].
  apply (parsePatternTuple_empty Sample.parseType Sample.parseExpr
           Sample.getBoundName 0 emptyTuple); reflexivity.
Defined.

(** X12 at the end of the input. *)
Lemma parsePattern_expected_pattern_witness :
  Tok_is (source []) tok.identifier = false /\
  isLParen (source []) = false /\
  Sample.parsePattern 2 (source [])
  = Ret ParseError
        (mkParserState [] 0 [mkDiagnostic 0 diag.expected_pattern []] 0).
Proof.
  split; [reflexivity|]. split; [reflexivity|].
  apply (parsePattern_expected_pattern Sample.parseType Sample.parseExpr
           Sample.getBoundName 0 (source [])); reflexivity.
Defined.

(** X13 at [(x: Int = bad)(y: Int) -> Int]: 14 tokens, fuel 58. *)
Lemma parseFunctionSignature_returns_witness :
  (forall Result s,
      remaining (snd (Sample.parseType Result s)) <= remaining s) /\
  (forall ID s, remaining (snd (Sample.parseExpr ID s)) <= remaining s) /\
  isLParen softClause = true /\
  4 * remaining softClause + 2 <= 58 /\
  exists r s', Sample.parseFunctionSignature 58 [] NullType softClause
               = Ret r s'.
Proof.
  split; [exact Sample_parseType_consumes|].
  split; [exact Sample_parseExpr_consumes|].
  split; [reflexivity|]. split; [vm_compute; lia|].
  apply (@parseFunctionSignature_returns
           Sample.parseType Sample.parseExpr Sample.getBoundName
           Sample_parseType_consumes Sample_parseExpr_consumes).
  - reflexivity.
  - vm_compute; lia.
Defined.

End MoreRuns.
